(** * News-Digest: the ingestion, dedupe, enrichment and grouping pipeline

    A shallow embedding of [news_digest.py].  Python values that the code
    handles dynamically (the decoded answer of the language model, the
    fields of a digest item) are terms of [pyvalue]; a [str] is a Rocq
    [string] whose characters stand for code points below 256, so slicing
    is by character and comparison is by code point, as in Python.
    Exceptions are values of [exn] and a call that may raise returns a
    [result].  Everything outside the process (HTTP, the feed parser, the
    chat completion, the SQLite file's health, the way the installed
    SQLAlchemy treats a statement nobody commits, SendGrid, the clock) is
    a field of [World]. *)

From Stdlib Require Import List String Ascii Bool Arith ZArith QArith Lia.
From Stdlib Require Import Permutation Sorted.
Import ListNotations.
Local Close Scope Q_scope.
Local Open Scope string_scope.
Local Open Scope list_scope.

Set Implicit Arguments.
Set Warnings "-register-all".

(* ------------------------------------------------------------------ *)
(** ** Exceptions and results *)

Inductive exn : Type :=
| ConnectionError      (* requests.get, r.json() or the payload's shape *)
| FeedError            (* anything feedparser.parse raises *)
| TypeError
| IndexError
| KeyError
| JSONDecodeError
| OpenAIError
| OperationalError     (* the database cannot execute the statement *)
| IntegrityError       (* UNIQUE or NOT NULL violated *)
| OverflowError        (* a date outside the representable range *)
| RuntimeError
| TemplateError
| SendGridError.

Inductive result (A : Type) : Type :=
| Ok (a : A)
| Raise (e : exn).
Arguments Ok {A} a.
Arguments Raise {A} e.

Definition bind {A B} (r : result A) (k : A -> result B) : result B :=
  match r with
  | Ok a => k a
  | Raise e => Raise e
  end.

Notation "x <- r ;; k" := (bind r (fun x => k))
  (at level 61, r at next level, right associativity).

Definition is_ok {A} (r : result A) : bool :=
  match r with Ok _ => true | Raise _ => false end.

(* ------------------------------------------------------------------ *)
(** ** Python values *)

(** What [json.loads] can return.  A number is a rational; the NaN and
    infinities that the decoder also accepts are not represented.  A dict
    is its items in insertion order. *)
Inductive pyvalue : Type :=
| PNone
| PBool (b : bool)
| PNum (q : Q)
| PStr (s : string)
| PList (l : list pyvalue)
| PDict (d : list (string * pyvalue)).

(** Truth value testing, as [if v], [not v] and [v or w] use it. *)
Definition truthy (v : pyvalue) : bool :=
  match v with
  | PNone => false
  | PBool b => b
  | PNum q => negb (Qeq_bool q 0)
  | PStr s => negb (s =? "")
  | PList l => match l with [] => false | _ => true end
  | PDict d => match d with [] => false | _ => true end
  end.

Definition isinstance_list (v : pyvalue) : bool :=
  match v with PList _ => true | _ => false end.

(** [d.get(k)]: the value stored under [k], [None] when the key is absent. *)
Fixpoint dict_get (d : list (string * pyvalue)) (k : string) : pyvalue :=
  match d with
  | [] => PNone
  | (k', v) :: d' => if k' =? k then v else dict_get d' k
  end.

(** [v[0]]. *)
Definition py_getitem0 (v : pyvalue) : result pyvalue :=
  match v with
  | PList (x :: _) => Ok x
  | PList [] => Raise IndexError
  | PStr (String c _) => Ok (PStr (String c ""))
  | PStr EmptyString => Raise IndexError
  | PDict _ => Raise KeyError
  | _ => Raise TypeError
  end.

(** Only hashable values can be dict keys; lists and dicts are not. *)
Definition hashable (v : pyvalue) : bool :=
  match v with
  | PList _ | PDict _ => false
  | _ => true
  end.

Definition num_of (v : pyvalue) : option Q :=
  match v with
  | PBool true => Some 1%Q
  | PBool false => Some 0%Q
  | PNum q => Some q
  | _ => None
  end.

(** Equality of dict keys: [True == 1 == 1.0], strings by content. *)
Definition key_eqb (a b : pyvalue) : bool :=
  match a, b with
  | PNone, PNone => true
  | PStr s, PStr t => s =? t
  | _, _ =>
      match num_of a, num_of b with
      | Some p, Some q => Qeq_bool p q
      | _, _ => false
      end
  end.

(** [x or y] on [str | None] values. *)
Definition truthy_str (x : option string) : bool :=
  match x with
  | Some s => negb (s =? "")
  | None => false
  end.

Definition py_or (x y : option string) : option string :=
  if truthy_str x then x else y.

(** [s[:n]] for [n >= 0]. *)
Fixpoint str_take (n : nat) (s : string) : string :=
  match n, s with
  | S n', String c s' => String c (str_take n' s')
  | _, _ => ""
  end.

(** [str.isspace] on the code points below 256. *)
Definition is_space (c : ascii) : bool :=
  let n := nat_of_ascii c in
  (((9 <=? n) && (n <=? 13)) || ((28 <=? n) && (n <=? 32))
   || (n =? 133) || (n =? 160))%nat.

Fixpoint lstrip (s : string) : string :=
  match s with
  | String c s' => if is_space c then lstrip s' else s
  | EmptyString => ""
  end.

Fixpoint rstrip (s : string) : string :=
  match s with
  | String c s' =>
      match rstrip s' with
      | EmptyString => if is_space c then "" else String c ""
      | r => String c r
      end
  | EmptyString => ""
  end.

Definition strip (s : string) : string := rstrip (lstrip s).

(** [s.split(',')]. *)
Fixpoint split_comma (s : string) : list string :=
  match s with
  | EmptyString => [""]
  | String c s' =>
      if Ascii.eqb c ","%char then "" :: split_comma s'
      else match split_comma s' with
           | h :: t => String c h :: t
           | [] => [String c ""]
           end
  end.

(** [l[:n]] for any integer [n]: a negative bound counts from the end. *)
Definition py_slice_to {A} (n : Z) (l : list A) : list A :=
  if (0 <=? n)%Z then firstn (Z.to_nat n) l
  else firstn (Z.to_nat (Z.of_nat (List.length l) + n)) l.

(* ------------------------------------------------------------------ *)
(** ** Items *)

(** The dict built by the two fetchers.  The ["raw"] entry is never read
    again and is left out. *)
Record article : Type := {
  id : option string;
  title : option string;
  url : option string;
  source : option string;
  published : option string
}.

(** The [info] dict of [main]. *)
Record DigestItem : Type := {
  d_title : option string;
  d_url : option string;
  d_source : option string;
  d_published : option string;
  summary : pyvalue;
  tags : pyvalue;
  sentiment : pyvalue;
  score : pyvalue
}.

(** One article of a NewsAPI answer, after [a.get(...)]. *)
Record api_article : Type := {
  a_url : option string;
  a_title : option string;
  a_publishedAt : option string;
  a_source_name : option string
}.

Record api_response : Type := {
  status : option string;
  articles : list api_article
}.

(** One entry of a parsed feed, after [e.get(...)]. *)
Record feed_entry : Type := {
  e_link : option string;
  e_id : option string;
  e_title : option string;
  e_published : option string;
  e_updated : option string
}.

Record parsed_feed : Type := {
  entries : list feed_entry;
  feed_title : option string
}.

(** What [build_and_send] hands to SendGrid: the subject is formatted from
    the generation time and the number of stories. *)
Record Message : Type := {
  msg_generated_at : string;
  msg_total : nat;
  msg_html : string
}.

Definition GroupedDigest : Type := list (pyvalue * list DigestItem).

(* ------------------------------------------------------------------ *)
(** ** The seen-articles table *)

(** A row of [seen_articles]; the autoincrement [id] is the position. *)
Record Row : Type := {
  article_id : string;
  seen_at : Z
}.

Definition Db : Type := list Row.

Definition has_key (db : Db) (k : string) : bool :=
  existsb (fun r => article_id r =? k) db.

(* ------------------------------------------------------------------ *)
(** ** The world outside the process *)

Record World : Type := {
  NEWSAPI_KEY : option string;
  RSS_FEEDS : string;
  SENDGRID_API_KEY : option string;
  FROM_EMAIL : option string;
  TO_EMAIL : option string;
  MAX_STORIES : Z;
  (** [requests.get(...)] followed by [r.json()] and the reads of the
      payload; any exception on the way is the [Raise]. *)
  requests_get : result api_response;
  feedparser_parse : string -> result parsed_feed;
  (** whether [is_seen] fails for this key: opening the connection, the
      SELECT, the fetch or the close raises *)
  select_fails : string -> bool;
  (** whether [engine.connect()] raises in [add_seen] called with this
      value *)
  connect_fails : option string -> bool;
  (** whether the INSERT of this value cannot be executed at all *)
  insert_fails : option string -> bool;
  (** whether [conn.close()] raises in [add_seen] called with this value *)
  close_fails : option string -> bool;
  (** what becomes of a statement executed on a connection that is closed
      without a commit: [true] when it is committed as it is executed (the
      autocommit of SQLAlchemy 1.x), [false] when it is rolled back by the
      close (SQLAlchemy 2.x).  The source pins no version. *)
  commits : bool;
  (** the chat completion for the prompt built from title and url, up to
      [resp['choices'][0]['message']['content']] *)
  chat_completion : option string -> option string -> result string;
  json_loads : string -> result pyvalue;
  py_str : pyvalue -> string;
  dateparser_parse : string -> option Z;
  (** [dt.astimezone(tz.gettz(TIMEZONE)).strftime(...)]; [astimezone]
      raises OverflowError when the shifted date leaves the range of
      [datetime] *)
  strftime_local : Z -> result string;
  utcnow : nat -> Z;
  now_local : string;
  template_render : GroupedDigest -> string -> nat -> result string;
  sg_send : Message -> result unit
}.

(** The statement [conn.execute(ins)]: the table as the connection sees
    it afterwards.  The column is [unique] and [nullable=False]. *)
Definition execute_insert (w : World) (db : Db) (aid : option string)
    (now : Z) : result Db :=
  if insert_fails w aid then Raise OperationalError
  else match aid with
       | None => Raise IntegrityError
       | Some k =>
           if has_key db k then Raise IntegrityError
           else Ok (db ++ [{| article_id := k; seen_at := now |}])
       end.

(** [add_seen]: the table it leaves, and whether it raised.  Only the
    exceptions of the insert are swallowed; [engine.connect()] and
    [conn.close()] stand outside the [try].  Nothing is committed here, so
    what the table keeps of an executed insert is up to [commits]. *)
Definition add_seen (w : World) (db : Db) (aid : option string) (now : Z)
    : Db * result unit :=
  if connect_fails w aid then (db, Raise OperationalError)
  else
    let in_transaction :=
      match execute_insert w db aid now with
      | Ok db' => db'
      | Raise _ => db
      end in
    let stored := if commits w then in_transaction else db in
    if close_fails w aid then (stored, Raise OperationalError)
    else (stored, Ok tt).

(** [is_seen]: nothing is caught here. *)
Definition is_seen (w : World) (db : Db) (k : string) : result bool :=
  if select_fails w k then Raise OperationalError
  else Ok (has_key db k).

(* ------------------------------------------------------------------ *)
(** ** Source adapters *)

Definition status_ok (data : api_response) : bool :=
  match status data with
  | Some s => s =? "ok"
  | None => false
  end.

Definition newsapi_article (a : api_article) : article :=
  {| id := a_url a;
     title := a_title a;
     url := a_url a;
     source := a_source_name a;
     published := a_publishedAt a |}.

(** [fetch_newsapi]: no handler around the request. *)
Definition fetch_newsapi (w : World) : result (list article) :=
  if negb (truthy_str (NEWSAPI_KEY w)) then Ok []
  else
    data <- requests_get w ;;
    Ok (if status_ok data then map newsapi_article (articles data) else []).

Definition or_empty (x : option string) : string :=
  match x with
  | Some s => s
  | None => ""
  end.

(** The body of the inner loop of [fetch_rss_feeds] for one entry;
    [None + str] is a TypeError. *)
Definition entry_article (feed : string) (p : parsed_feed) (e : feed_entry)
    : result article :=
  art_id <-
    (if truthy_str (e_link e) then Ok (e_link e)
     else if truthy_str (e_id e) then Ok (e_id e)
     else match e_title e with
          | Some t => Ok (Some (t ++ or_empty (e_published e))%string)
          | None => Raise TypeError
          end) ;;
  Ok {| id := art_id;
        title := e_title e;
        url := e_link e;
        source := py_or (feed_title p) (Some feed);
        published := py_or (e_published e) (py_or (e_updated e) (Some "")) |}.

(** The entries appended to [results] before the feed's first exception. *)
Fixpoint feed_entries (feed : string) (p : parsed_feed)
    (es : list feed_entry) : list article :=
  match es with
  | [] => []
  | e :: es' =>
      match entry_article feed p e with
      | Ok a => a :: feed_entries feed p es'
      | Raise _ => []
      end
  end.

Definition feeds_of (s : string) : list string :=
  filter (fun f => negb (f =? "")) (map strip (split_comma s)).

(** [fetch_rss_feeds]: every feed is tried, an exception skips to the
    next one. *)
Definition fetch_rss_feeds (w : World) : list article :=
  flat_map
    (fun feed =>
       match feedparser_parse w feed with
       | Ok p => feed_entries feed p (entries p)
       | Raise _ => []
       end)
    (feeds_of (RSS_FEEDS w)).

(* ------------------------------------------------------------------ *)
(** ** Merge and dedupe *)

(** [x.get('published') or ""]. *)
Definition sort_key (a : article) : string :=
  or_empty (py_or (published a) (Some "")).

(** [sorted(..., reverse=True)] is stable: among equal keys the input
    order is kept.  Insertion from the right gives the same list. *)
Fixpoint insert_desc (x : article) (l : list article) : list article :=
  match l with
  | [] => [x]
  | y :: l' =>
      if String.ltb (sort_key x) (sort_key y) then y :: insert_desc x l'
      else x :: l
  end.

Fixpoint sorted_desc (l : list article) : list article :=
  match l with
  | [] => []
  | x :: l' => insert_desc x (sorted_desc l')
  end.

(** [a.get('id') or a.get('url') or a.get('title')]. *)
Definition derive_key (a : article) : option string :=
  py_or (py_or (id a) (url a)) (title a).

Definition dict_mem (k : string) (unique : list (string * article)) : bool :=
  existsb (fun kv => fst kv =? k) unique.

Fixpoint dedupe_loop (w : World) (db : Db) (unique : list (string * article))
    (l : list article) : result (list (string * article)) :=
  match l with
  | [] => Ok unique
  | a :: rest =>
      match derive_key a with
      | None => dedupe_loop w db unique rest
      | Some key =>
          if key =? "" then dedupe_loop w db unique rest
          else
            seen <- is_seen w db key ;;
            if (seen : bool) then dedupe_loop w db unique rest
            else if dict_mem key unique then dedupe_loop w db unique rest
            else dedupe_loop w db (unique ++ [(key, a)]) rest
      end
  end.

Definition dedupe_and_filter (w : World) (db : Db) (l : list article)
    : result (list article) :=
  unique <- dedupe_loop w db [] l ;;
  Ok (map snd unique).

(** Lines 225 to 231 of [main]: sort, dedupe, keep the first
    [MAX_STORIES]. *)
Definition merge_and_dedupe (w : World) (db : Db) (all_articles : list article)
    : result (list article) :=
  candidates <- dedupe_and_filter w db (sorted_desc all_articles) ;;
  Ok (py_slice_to (MAX_STORIES w) candidates).

(* ------------------------------------------------------------------ *)
(** ** Enrichment *)

Definition default_enrichment (summary_text : string) : pyvalue :=
  PDict [("summary", PStr summary_text);
         ("tags", PList [PStr "Other"]);
         ("sentiment", PStr "Neutral");
         ("score", PNum (1 # 2))].

Definition call_llm_for_article (w : World) (a : article) : pyvalue :=
  match chat_completion w (title a) (url a) with
  | Raise _ => default_enrichment (or_empty (py_or (title a) (Some "")))
  | Ok content =>
      let out := strip content in
      match json_loads w out with
      | Ok parsed => parsed
      | Raise _ => default_enrichment (str_take 400 out)
      end
  end.

(** [normalize_date]: no handler around [astimezone]. *)
Definition normalize_date (w : World) (d : option string)
    : result (option string) :=
  if negb (truthy_str d) then Ok None
  else match dateparser_parse w (or_empty d) with
       | None => Ok None
       | Some dt => s <- strftime_local w dt ;; Ok (Some s)
       end.

(** The [info] dict built in the loop of [main], once [normalize_date]
    has returned [normalized]. *)
Definition enrich (w : World) (a : article) (normalized : option string)
    : DigestItem :=
  let llm := call_llm_for_article w a in
  {| d_title := title a;
     d_url := url a;
     d_source := source a;
     d_published := normalized;
     summary := match llm with
                | PDict d => dict_get d "summary"
                | _ => PStr (str_take 400 (py_str w llm))
                end;
     tags := match llm with
             | PDict d => dict_get d "tags"
             | _ => PList [PStr "Other"]
             end;
     sentiment := match llm with
                  | PDict d => dict_get d "sentiment"
                  | _ => PStr "Neutral"
                  end;
     score := match llm with
              | PDict d => dict_get d "score"
              | _ => PNum (1 # 2)
              end |}.

(** The loop of [main]: the dict literal with [normalize_date], the
    language model, [processed.append(info)], then
    [add_seen(a.get('id'))]; an exception of [normalize_date] or
    [add_seen] ends the loop.  [i] counts the iterations for the clock. *)
Fixpoint enrich_loop (w : World) (candidates : list article) (i : nat)
    (db : Db) (processed : list DigestItem)
    : Db * result (list DigestItem) :=
  match candidates with
  | [] => (db, Ok processed)
  | a :: rest =>
      match normalize_date w (published a) with
      | Raise e => (db, Raise e)
      | Ok normalized =>
          let info := enrich w a normalized in
          let processed' := processed ++ [info] in
          match add_seen w db (id a) (utcnow w i) with
          | (db', Raise e) => (db', Raise e)
          | (db', Ok _) => enrich_loop w rest (S i) db' processed'
          end
      end
  end.

(* ------------------------------------------------------------------ *)
(** ** Grouping *)

(** [tags = it.get('tags') or ["Other"]], then
    [tags[0] if isinstance(tags, list) and tags else "Other"]. *)
Definition primary_tag (tgs : pyvalue) : result pyvalue :=
  let tags' := if truthy tgs then tgs else PList [PStr "Other"] in
  if isinstance_list tags' && truthy tags' then py_getitem0 tags'
  else Ok (PStr "Other").

(** [if primary not in grouped: grouped[primary] = []], then
    [grouped[primary].append(it)], on an insertion-ordered dict. *)
Fixpoint grouped_append (primary : pyvalue) (it : DigestItem)
    (grouped : GroupedDigest) : GroupedDigest :=
  match grouped with
  | [] => [(primary, [it])]
  | (k, grp) :: rest =>
      if key_eqb primary k then (k, grp ++ [it]) :: rest
      else (k, grp) :: grouped_append primary it rest
  end.

Fixpoint group_loop (grouped : GroupedDigest) (items : list DigestItem)
    : result GroupedDigest :=
  match items with
  | [] => Ok grouped
  | it :: rest =>
      primary <- primary_tag (tags it) ;;
      if hashable primary then group_loop (grouped_append primary it grouped) rest
      else Raise TypeError
  end.

Definition group_by_topic (items : list DigestItem) : result GroupedDigest :=
  group_loop [] items.

(* ------------------------------------------------------------------ *)
(** ** Delivery and the orchestrator *)

Definition send_email_via_sendgrid (w : World) (m : Message) : result unit :=
  if negb (truthy_str (SENDGRID_API_KEY w))
     || negb (truthy_str (FROM_EMAIL w))
     || negb (truthy_str (TO_EMAIL w))
  then Raise RuntimeError
  else sg_send w m.

Definition build_and_send (w : World) (stories : list DigestItem)
    : result unit :=
  let generated_at := now_local w in
  grouped <- group_by_topic stories ;;
  html <- template_render w grouped generated_at (List.length stories) ;;
  send_email_via_sendgrid w
    {| msg_generated_at := generated_at;
       msg_total := List.length stories;
       msg_html := html |}.

Inductive outcome : Type :=
| Sent
| NoNewStories.

(** [main]: the final state of the table together with how the run
    ended. *)
Definition main (w : World) (db : Db) : Db * result outcome :=
  match fetch_newsapi w with
  | Raise e => (db, Raise e)
  | Ok newsapi_articles =>
      let rss_articles := fetch_rss_feeds w in
      let all_articles := newsapi_articles ++ rss_articles in
      match merge_and_dedupe w db all_articles with
      | Raise e => (db, Raise e)
      | Ok candidates =>
          match enrich_loop w candidates 0 db [] with
          | (db', Raise e) => (db', Raise e)
          | (db', Ok []) => (db', Ok NoNewStories)
          | (db', Ok (it :: processed)) =>
              match build_and_send w (it :: processed) with
              | Ok _ => (db', Ok Sent)
              | Raise e => (db', Raise e)
              end
          end
      end
  end.

(* ------------------------------------------------------------------ *)
(** ** Vocabulary of the statements *)

(** [primary_tag] with the indexing operation left open, to tell where
    [tags[0]] is evaluated. *)
Definition primary_tag_with (getitem0 : pyvalue -> result pyvalue)
    (tgs : pyvalue) : result pyvalue :=
  let tags' := if truthy tgs then tgs else PList [PStr "Other"] in
  if isinstance_list tags' && truthy tags' then getitem0 tags'
  else Ok (PStr "Other").

Definition nonempty_list (v : pyvalue) : bool :=
  match v with
  | PList (_ :: _) => true
  | _ => false
  end.

(** The key an item is filed under. *)
Definition primary_of (it : DigestItem) : pyvalue :=
  match tags it with
  | PList (x :: _) => x
  | _ => PStr "Other"
  end.

Definition filed_under (k : pyvalue) (it : DigestItem) : bool :=
  key_eqb (primary_of it) k.

Definition total_size (g : GroupedDigest) : nat :=
  list_sum (map (fun kg => List.length (snd kg)) g).

Fixpoint keys_distinct (g : GroupedDigest) : Prop :=
  match g with
  | [] => True
  | (k, _) :: rest =>
      Forall (fun kg => key_eqb k (fst kg) = false) rest /\ keys_distinct rest
  end.

(** What the dict [grouped] is after the items [seen] have been filed. *)
Record grouping_of (g : GroupedDigest) (seen : list DigestItem) : Prop := {
  go_distinct : keys_distinct g;
  go_size : total_size g = List.length seen;
  go_groups :
    Forall (fun kg => hashable (fst kg) = true /\
                      snd kg = filter (filed_under (fst kg)) seen) g;
  go_covered :
    Forall (fun it => existsb (key_eqb (primary_of it)) (map fst g) = true)
           seen
}.

(** The effect of [grouped_append] on one entry of the dict. *)
Definition file_into (p : pyvalue) (it : DigestItem)
    (kg : pyvalue * list DigestItem) : pyvalue * list DigestItem :=
  if key_eqb p (fst kg) then (fst kg, snd kg ++ [it]) else kg.

(** [a] does not sort after [b]: its key is not below [b]'s. *)
Definition ge_key (a b : article) : Prop :=
  String.ltb (sort_key a) (sort_key b) = false.

(** [l1] is [l2] with some elements left out, order kept. *)
Inductive subseq {A : Type} : list A -> list A -> Prop :=
| subseq_nil : subseq [] []
| subseq_skip x l1 l2 : subseq l1 l2 -> subseq l1 (x :: l2)
| subseq_keep x l1 l2 : subseq l1 l2 -> subseq (x :: l1) (x :: l2).

(** [a] is the first article of [l] with its key. *)
Definition first_with_key (a : article) (l : list article) : Prop :=
  exists pre post : list article,
    l = pre ++ a :: post /\
    (forall b, In b pre -> derive_key b <> derive_key a).

(** The keys the dedupe pass lets through: truthy and not in the table. *)
Definition eligible (db : Db) (k : string) : bool :=
  negb (k =? "") && negb (has_key db k).

(** What the dict [unique] is after the articles [done] have been walked. *)
Record dedupe_state (db : Db) (unique : list (string * article))
    (done : list article) : Prop := {
  ds_nodup : NoDup (map fst unique);
  ds_keys :
    Forall (fun ka => derive_key (snd ka) = Some (fst ka) /\
                      eligible db (fst ka) = true /\
                      first_with_key (snd ka) done) unique;
  ds_subseq : subseq (map snd unique) done;
  ds_complete :
    Forall (fun b => forall k, derive_key b = Some k ->
                               eligible db k = true ->
                               dict_mem k unique = true) done
}.

(** Every membership check the pass makes on [l] can be executed. *)
Definition readable (w : World) (l : list article) : Prop :=
  forall a k, In a l -> derive_key a = Some k -> select_fails w k = false.

(** An article as a fetcher builds it, with identity [k] and published
    string [p]. *)
Definition story (k p : string) : article :=
  {| id := Some k; title := Some k; url := None; source := Some "feed";
     published := Some p |}.

(** Worlds for the examples: the sources, the table's health, the
    language model and SendGrid are given, everything else is fixed: the
    connection opens and closes, inserts are committed as under
    SQLAlchemy 1.x, no date can be parsed. *)
Definition world (resp : result api_response) (feeds : string)
    (sel : string -> bool) (chat : result string)
    (loads : string -> result pyvalue) (send : result unit) : World :=
  {| NEWSAPI_KEY := Some "key";
     RSS_FEEDS := feeds;
     SENDGRID_API_KEY := Some "sg";
     FROM_EMAIL := Some "digest@example.org";
     TO_EMAIL := Some "reader@example.org";
     MAX_STORIES := 15;
     requests_get := resp;
     feedparser_parse := fun _ =>
       Ok {| entries := [{| e_link := Some "http://feed/1";
                            e_id := None;
                            e_title := Some "From the feed";
                            e_published := Some "2024-01-01";
                            e_updated := None |}];
             feed_title := Some "Feed" |};
     select_fails := sel;
     connect_fails := fun _ => false;
     insert_fails := fun _ => false;
     close_fails := fun _ => false;
     commits := true;
     chat_completion := fun _ _ => chat;
     json_loads := loads;
     py_str := fun _ => "";
     dateparser_parse := fun _ => None;
     strftime_local := fun _ => Ok "";
     utcnow := fun i => Z.of_nat i;
     now_local := "2024-01-03 08:00 UTC";
     template_render := fun _ _ _ => Ok "<html></html>";
     sg_send := fun _ => send |}.

Definition api_ok (l : list api_article) : result api_response :=
  Ok {| status := Some "ok"; articles := l |}.

Definition api_story (u t p : option string) : api_article :=
  {| a_url := u; a_title := t; a_publishedAt := p;
     a_source_name := Some "Wire" |}.

Definition no_json (s : string) : result pyvalue := Raise JSONDecodeError.

(** A world in which nothing fails and no source has anything. *)
Definition quiet_world : World :=
  world (api_ok []) "" (fun _ => false) (Raise OpenAIError) no_json (Ok tt).

(** NewsAPI is unreachable, one feed is configured and healthy. *)
Definition newsapi_down : World :=
  world (Raise ConnectionError) "http://feed/rss" (fun _ => false)
        (Raise OpenAIError) no_json (Ok tt).

(** Two stories, and the SELECT for the first one's key cannot run. *)
Definition select_down_for_a : World :=
  world (api_ok [api_story (Some "a") (Some "A") (Some "2024-01-02");
                 api_story (Some "b") (Some "B") (Some "2024-01-01")])
        "" (fun k => k =? "a") (Raise OpenAIError) no_json (Ok tt).

(** One NewsAPI article without a url: its key is its title. *)
Definition untitled_url : World :=
  world (api_ok [api_story None (Some "T") (Some "2024-01-02")])
        "" (fun _ => false) (Raise OpenAIError) no_json (Ok tt).

(** The model answers with the empty JSON object. *)
Definition loads_braces (s : string) : result pyvalue :=
  if s =? "{}" then Ok (PDict []) else Raise JSONDecodeError.

Definition empty_object_answer : World :=
  world (api_ok [api_story (Some "a") (Some "A") (Some "2024-01-02")])
        "" (fun _ => false) (Ok " {} ") loads_braces (Ok tt).

(** Two stories, the model is down and so is SendGrid. *)
Definition sendgrid_down : World :=
  world (api_ok [api_story (Some "a") (Some "A") (Some "2024-01-02");
                 api_story (Some "b") (Some "B") (Some "2024-01-01")])
        "" (fun _ => false) (Raise OpenAIError) no_json (Raise SendGridError).

(** The three fields of an Enrichment that the data model constrains. *)
Definition is_str (v : pyvalue) : bool :=
  match v with PStr _ => true | _ => false end.

Definition tags_ok (v : pyvalue) : bool :=
  match v with
  | PList (x :: l) => forallb is_str (x :: l)
  | _ => false
  end.

Definition sentiment_ok (v : pyvalue) : bool :=
  match v with
  | PStr s => (s =? "Positive") || (s =? "Neutral") || (s =? "Negative")
  | _ => false
  end.

Definition score_ok (v : pyvalue) : bool :=
  match v with
  | PNum q => Qle_bool 0 q && Qle_bool q 1
  | _ => false
  end.

Definition well_formed_enrichment (it : DigestItem) : bool :=
  tags_ok (tags it) && sentiment_ok (sentiment it) && score_ok (score it).

Definition fields_ok (d : list (string * pyvalue)) : bool :=
  tags_ok (dict_get d "tags") && sentiment_ok (dict_get d "sentiment")
  && score_ok (dict_get d "score").

(** The item [main] builds for [a] when the chat completion has failed. *)
Definition fallback_item (a : article) (normalized : option string)
    : DigestItem :=
  {| d_title := title a;
     d_url := url a;
     d_source := source a;
     d_published := normalized;
     summary := PStr (or_empty (title a));
     tags := PList [PStr "Other"];
     sentiment := PStr "Neutral";
     score := PNum (1 # 2) |}.

Definition item_tagged (t : string) (tgs : pyvalue) : DigestItem :=
  {| d_title := Some t; d_url := None; d_source := None;
     d_published := None; summary := PStr t; tags := tgs;
     sentiment := PStr "Neutral"; score := PNum (1 # 2) |}.

(** The first character of [s], if there is one, is not white space. *)
Definition starts_nonspace (s : string) : bool :=
  match s with
  | String c _ => negb (is_space c)
  | EmptyString => true
  end.

(** An entry for which [fetch_rss_feeds] can compute an id: it has a
    link, an id or at least a title. *)
Definition identifiable (e : feed_entry) : bool :=
  truthy_str (e_link e) || truthy_str (e_id e)
  || match e_title e with Some _ => true | None => false end.

(** The negation of the guard of [send_email_via_sendgrid]. *)
Definition sendgrid_configured (w : World) : bool :=
  truthy_str (SENDGRID_API_KEY w) && truthy_str (FROM_EMAIL w)
  && truthy_str (TO_EMAIL w).

(** The articles [main] hands to the dedupe pass. *)
Definition fetched (w : World) (newsapi_articles : list article)
    : list article :=
  newsapi_articles ++ fetch_rss_feeds w.

(** [w] with another value of [MAX_STORIES]. *)
Definition with_max (n : Z) (w : World) : World :=
  {| NEWSAPI_KEY := NEWSAPI_KEY w;
     RSS_FEEDS := RSS_FEEDS w;
     SENDGRID_API_KEY := SENDGRID_API_KEY w;
     FROM_EMAIL := FROM_EMAIL w;
     TO_EMAIL := TO_EMAIL w;
     MAX_STORIES := n;
     requests_get := requests_get w;
     feedparser_parse := feedparser_parse w;
     select_fails := select_fails w;
     connect_fails := connect_fails w;
     insert_fails := insert_fails w;
     close_fails := close_fails w;
     commits := commits w;
     chat_completion := chat_completion w;
     json_loads := json_loads w;
     py_str := py_str w;
     dateparser_parse := dateparser_parse w;
     strftime_local := strftime_local w;
     utcnow := utcnow w;
     now_local := now_local w;
     template_render := template_render w;
     sg_send := sg_send w |}.

(** [w] with [TO_EMAIL] unset. *)
Definition without_recipient (w : World) : World :=
  {| NEWSAPI_KEY := NEWSAPI_KEY w;
     RSS_FEEDS := RSS_FEEDS w;
     SENDGRID_API_KEY := SENDGRID_API_KEY w;
     FROM_EMAIL := FROM_EMAIL w;
     TO_EMAIL := None;
     MAX_STORIES := MAX_STORIES w;
     requests_get := requests_get w;
     feedparser_parse := feedparser_parse w;
     select_fails := select_fails w;
     connect_fails := connect_fails w;
     insert_fails := insert_fails w;
     close_fails := close_fails w;
     commits := commits w;
     chat_completion := chat_completion w;
     json_loads := json_loads w;
     py_str := py_str w;
     dateparser_parse := dateparser_parse w;
     strftime_local := strftime_local w;
     utcnow := utcnow w;
     now_local := now_local w;
     template_render := template_render w;
     sg_send := sg_send w |}.

(** Two stories from NewsAPI, one healthy feed, the model answers with
    text that is not JSON, SendGrid accepts. *)
Definition all_well : World :=
  world (api_ok [api_story (Some "a") (Some "A") (Some "2024-01-02");
                 api_story (Some "b") (Some "B") (Some "2024-01-01")])
        " http://feed/rss , " (fun _ => false) (Ok "  A short summary. ")
        no_json (Ok tt).

(** The double quote, and the JSON text of an object whose only tag is
    itself a list. *)
Definition dq : string := String "034"%char "".

Definition nested_json : string :=
  ("{" ++ dq ++ "tags" ++ dq ++ ": [[" ++ dq ++ "AI" ++ dq ++ "]]}")%string.

Definition loads_nested (s : string) : result pyvalue :=
  if s =? nested_json then Ok (PDict [("tags", PList [PList [PStr "AI"]])])
  else Raise JSONDecodeError.

(** The model answers with that object. *)
Definition nested_tag_answer : World :=
  world (api_ok [api_story (Some "a") (Some "A") (Some "2024-01-02")])
        "" (fun _ => false) (Ok nested_json) loads_nested (Ok tt).

(** A feed entry with the given link, id and title. *)
Definition entry (l i t : option string) : feed_entry :=
  {| e_link := l; e_id := i; e_title := t;
     e_published := Some "2024-01-01"; e_updated := None |}.

(** [w] under SQLAlchemy 2.x: an insert nobody commits is rolled back. *)
Definition uncommitted (w : World) : World :=
  {| NEWSAPI_KEY := NEWSAPI_KEY w;
     RSS_FEEDS := RSS_FEEDS w;
     SENDGRID_API_KEY := SENDGRID_API_KEY w;
     FROM_EMAIL := FROM_EMAIL w;
     TO_EMAIL := TO_EMAIL w;
     MAX_STORIES := MAX_STORIES w;
     requests_get := requests_get w;
     feedparser_parse := feedparser_parse w;
     select_fails := select_fails w;
     connect_fails := connect_fails w;
     insert_fails := insert_fails w;
     close_fails := close_fails w;
     commits := false;
     chat_completion := chat_completion w;
     json_loads := json_loads w;
     py_str := py_str w;
     dateparser_parse := dateparser_parse w;
     strftime_local := strftime_local w;
     utcnow := utcnow w;
     now_local := now_local w;
     template_render := template_render w;
     sg_send := sg_send w |}.

(** [w] with a date parser that reads ["0001-01-01"] as the first instant
    of year 1, here instant 0, which [astimezone] cannot shift. *)
Definition with_year_one (w : World) : World :=
  {| NEWSAPI_KEY := NEWSAPI_KEY w;
     RSS_FEEDS := RSS_FEEDS w;
     SENDGRID_API_KEY := SENDGRID_API_KEY w;
     FROM_EMAIL := FROM_EMAIL w;
     TO_EMAIL := TO_EMAIL w;
     MAX_STORIES := MAX_STORIES w;
     requests_get := requests_get w;
     feedparser_parse := feedparser_parse w;
     select_fails := select_fails w;
     connect_fails := connect_fails w;
     insert_fails := insert_fails w;
     close_fails := close_fails w;
     commits := commits w;
     chat_completion := chat_completion w;
     json_loads := json_loads w;
     py_str := py_str w;
     dateparser_parse := fun s => if s =? "0001-01-01" then Some 0%Z else None;
     strftime_local :=
       fun dt => if (dt =? 0)%Z then Raise OverflowError else Ok "";
     utcnow := utcnow w;
     now_local := now_local w;
     template_render := template_render w;
     sg_send := sg_send w |}.

(** One story dated 0001-01-01, the model answers, SendGrid accepts. *)
Definition year_one_story : World :=
  with_year_one
    (world (api_ok [api_story (Some "a") (Some "A") (Some "0001-01-01")])
           "" (fun _ => false) (Ok "A summary.") no_json (Ok tt)).

(** The loop of [main] gets past [a]: neither [normalize_date] nor the
    connection of [add_seen] raises. *)
Definition smooth (w : World) (a : article) : Prop :=
  is_ok (normalize_date w (published a)) = true /\
  connect_fails w (id a) = false /\
  close_fails w (id a) = false.

(** [it] is the item the loop builds for [a]. *)
Definition item_of (w : World) (a : article) (it : DigestItem) : Prop :=
  exists normalized,
    normalize_date w (published a) = Ok normalized /\
    it = enrich w a normalized.

(** The defaults of an Enrichment. *)
Definition default_fields (it : DigestItem) : Prop :=
  tags it = PList [PStr "Other"] /\
  sentiment it = PStr "Neutral" /\
  score it = PNum (1 # 2).

(* ------------------------------------------------------------------ *)
(** ** The seen-articles table: lemmas *)

Section SeenTable.

Variable w : World.

Lemma has_key_app (db : Db) (r : Row) (k : string) :
  has_key (db ++ [r]) k = has_key db k || (article_id r =? k).
Proof.
  unfold has_key. rewrite existsb_app. simpl. now rewrite orb_false_r.
Qed.

Lemma add_seen_cases (db : Db) (aid : option string) (now : Z) :
  fst (add_seen w db aid now) = db \/
  exists k, aid = Some k /\ has_key db k = false /\
            fst (add_seen w db aid now) =
            db ++ [{| article_id := k; seen_at := now |}].
Proof.
  unfold add_seen, execute_insert.
  destruct (connect_fails w aid); [now left|].
  destruct (commits w);
    [|destruct (close_fails w aid); now left].
  destruct (insert_fails w aid);
    [destruct (close_fails w aid); now left|].
  destruct aid as [k|]; [|destruct (close_fails w None); now left].
  destruct (has_key db k) eqn:E;
    [destruct (close_fails w (Some k)); now left|].
  right. exists k. destruct (close_fails w (Some k)); auto.
Qed.

Lemma add_seen_keeps (db : Db) (aid : option string) (now : Z) (k : string) :
  has_key db k = true -> has_key (fst (add_seen w db aid now)) k = true.
Proof.
  intros H. destruct (add_seen_cases db aid now) as [-> | (k' & _ & _ & ->)].
  - exact H.
  - rewrite has_key_app, H. reflexivity.
Qed.

(** Where inserts are committed and the connection opens, an insert that
    can be executed leaves the key in the table. *)
Lemma add_seen_records (db : Db) (k : string) (now : Z) :
  commits w = true ->
  connect_fails w (Some k) = false ->
  insert_fails w (Some k) = false ->
  has_key (fst (add_seen w db (Some k) now)) k = true.
Proof.
  intros Hc Hconn H. unfold add_seen, execute_insert. rewrite Hconn, Hc, H.
  destruct (has_key db k) eqn:E.
  - destruct (close_fails w (Some k)); exact E.
  - destruct (close_fails w (Some k)); simpl;
      rewrite has_key_app; simpl; rewrite String.eqb_refl; apply orb_true_r.
Qed.

(** Where inserts are not committed, [add_seen] never changes the table. *)
Lemma add_seen_uncommitted (db : Db) (aid : option string) (now : Z) :
  commits w = false -> fst (add_seen w db aid now) = db.
Proof.
  intros Hc. unfold add_seen. rewrite Hc.
  destruct (connect_fails w aid); [reflexivity|].
  now destruct (close_fails w aid).
Qed.

(** [add_seen] raises only for the connection. *)
Lemma add_seen_returns (db : Db) (aid : option string) (now : Z) :
  connect_fails w aid = false -> close_fails w aid = false ->
  snd (add_seen w db aid now) = Ok tt.
Proof.
  intros H1 H2. unfold add_seen. now rewrite H1, H2.
Qed.

(** Under the autocommit of SQLAlchemy 1.x: the second insert of a key
    hits the UNIQUE constraint, [add_seen] swallows that error and leaves
    the table as the first call left it, and [is_seen] answers [True]. *)
Lemma add_seen_twice_committed (db : Db) (k : string) (t1 t2 : Z) :
  commits w = true ->
  connect_fails w (Some k) = false ->
  close_fails w (Some k) = false ->
  insert_fails w (Some k) = false ->
  select_fails w k = false ->
  let db1 := fst (add_seen w db (Some k) t1) in
  execute_insert w db1 (Some k) t2 = Raise IntegrityError /\
  add_seen w db1 (Some k) t2 = (db1, Ok tt) /\
  is_seen w (fst (add_seen w db1 (Some k) t2)) k = Ok true.
Proof.
  intros Hc Hconn Hclose Hins Hsel db1.
  assert (Hin : has_key db1 k = true) by now apply add_seen_records.
  assert (Hex : execute_insert w db1 (Some k) t2 = Raise IntegrityError).
  { unfold execute_insert. now rewrite Hins, Hin. }
  assert (Hadd : add_seen w db1 (Some k) t2 = (db1, Ok tt)).
  { unfold add_seen. now rewrite Hconn, Hex, Hc, Hclose. }
  repeat split; auto.
  rewrite Hadd. unfold is_seen. simpl. now rewrite Hsel, Hin.
Qed.

End SeenTable.

(** C6: recording a key twice and then asking for it, where nobody
    commits.  [add_seen] executes the INSERT and closes the connection
    without a commit; under SQLAlchemy 2.x the close rolls the row back.
    Both calls return without an error, the second insert meets no UNIQUE
    conflict because the first row is gone, and [is_seen] answers
    [False]. *)
Theorem add_seen_without_commit_is_forgotten :
  let w := uncommitted quiet_world in
  let db1 := fst (add_seen w [] (Some "k") 1) in
  let db2 := fst (add_seen w db1 (Some "k") 2) in
  add_seen w [] (Some "k") 1 = ([], Ok tt) /\
  execute_insert w db1 (Some "k") 2 =
    Ok [{| article_id := "k"; seen_at := 2 |}] /\
  add_seen w db1 (Some "k") 2 = ([], Ok tt) /\
  is_seen w db2 "k" = Ok false.
Proof. repeat split. Qed.

(* ------------------------------------------------------------------ *)
(** ** Dict keys *)

Lemma key_eqb_refl (k : pyvalue) : hashable k = true -> key_eqb k k = true.
Proof.
  destruct k as [|[]|q|s| |]; simpl; intros H; try discriminate; auto.
  - apply Qeq_bool_refl.
  - apply String.eqb_refl.
Qed.

Lemma key_eqb_sym (a b : pyvalue) : key_eqb a b = key_eqb b a.
Proof.
  destruct a as [|[]|p|s| |], b as [|[]|q|t| |]; simpl; auto;
    try apply Qeq_bool_comm.
  apply String.eqb_sym.
Qed.

Lemma key_eqb_trans (a b c : pyvalue) :
  key_eqb a b = true -> key_eqb b c = true -> key_eqb a c = true.
Proof.
  destruct a as [|[]|p|s| |], b as [|[]|q|t| |], c as [|[]|r|u| |];
    simpl; intros H1 H2; try discriminate; auto;
    try (eapply Qeq_bool_trans; eassumption).
  apply String.eqb_eq in H1, H2. subst. apply String.eqb_refl.
Qed.

Lemma key_eqb_str (s : string) (k : pyvalue) :
  key_eqb (PStr s) k = true -> k = PStr s.
Proof.
  destruct k as [|[]|q|t| |]; simpl; intros H; try discriminate.
  apply String.eqb_eq in H. now subst.
Qed.

(** Two keys equal to a third one are equal. *)
Lemma key_eqb_common (p k k' : pyvalue) :
  key_eqb p k = true -> key_eqb k k' = false -> key_eqb p k' = false.
Proof.
  intros H1 H2. destruct (key_eqb p k') eqn:E; auto.
  rewrite key_eqb_sym in H1.
  now rewrite (key_eqb_trans _ _ _ H1 E) in H2.
Qed.

(* ------------------------------------------------------------------ *)
(** ** Grouping: lemmas *)

Lemma primary_tag_with_cases (g : pyvalue -> result pyvalue) (t : pyvalue) :
  (nonempty_list t = true /\ primary_tag_with g t = g t) \/
  (nonempty_list t = false /\ truthy t = true /\
   primary_tag_with g t = Ok (PStr "Other")) \/
  (nonempty_list t = false /\ truthy t = false /\
   primary_tag_with g t = g (PList [PStr "Other"])).
Proof.
  unfold primary_tag_with.
  destruct t as [|b|q|s|l|d]; simpl.
  - right; right; auto.
  - destruct b; simpl; [right; left | right; right]; auto.
  - destruct (Qeq_bool q 0); simpl; [right; right | right; left]; auto.
  - destruct (s =? ""); simpl; [right; right | right; left]; auto.
  - destruct l; simpl; [right; right | left]; auto.
  - destruct d; simpl; [right; right | right; left]; auto.
Qed.

Lemma primary_tag_unfold (t : pyvalue) :
  primary_tag t = primary_tag_with py_getitem0 t.
Proof. reflexivity. Qed.

Lemma primary_tag_total (it : DigestItem) :
  primary_tag (tags it) = Ok (primary_of it).
Proof.
  rewrite primary_tag_unfold. unfold primary_of.
  destruct (primary_tag_with_cases py_getitem0 (tags it))
    as [[H ->] | [(H & _ & ->) | (H & _ & ->)]];
    destruct (tags it) as [| | | |[|x l]|]; simpl in *;
    try discriminate; reflexivity.
Qed.

Lemma map_file_into_id (p : pyvalue) (it : DigestItem) (g : GroupedDigest) :
  Forall (fun kg => key_eqb p (fst kg) = false) g ->
  map (file_into p it) g = g.
Proof.
  induction 1 as [|kg g H _ IH]; simpl; [reflexivity|].
  unfold file_into at 1. now rewrite H, IH.
Qed.

(** On a dict whose keys are pairwise different, appending under [p]
    touches the one group whose key equals [p], or adds a last group. *)
Lemma grouped_append_map (p : pyvalue) (it : DigestItem) (g : GroupedDigest) :
  keys_distinct g ->
  grouped_append p it g =
  map (file_into p it) g ++
  (if existsb (fun kg => key_eqb p (fst kg)) g then [] else [(p, [it])]).
Proof.
  induction g as [|[k grp] g IH]; simpl; [reflexivity|].
  intros [Hk Hd]. unfold file_into at 1. simpl.
  destruct (key_eqb p k) eqn:E; simpl.
  - rewrite map_file_into_id, app_nil_r; [reflexivity|].
    eapply Forall_impl; [|exact Hk]. intros kg H.
    eapply key_eqb_common; eassumption.
  - now rewrite IH.
Qed.

Lemma total_size_grouped_append (p : pyvalue) (it : DigestItem)
    (g : GroupedDigest) :
  total_size (grouped_append p it g) = S (total_size g).
Proof.
  unfold total_size. induction g as [|[k grp] g IH]; simpl; [reflexivity|].
  destruct (key_eqb p k); simpl.
  - rewrite length_app. simpl. lia.
  - rewrite IH. lia.
Qed.

Lemma keys_grouped_append (p : pyvalue) (it : DigestItem) (g : GroupedDigest) :
  map fst (grouped_append p it g) =
  map fst g ++ (if existsb (fun kg => key_eqb p (fst kg)) g then [] else [p]).
Proof.
  induction g as [|[k grp] g IH]; simpl; [reflexivity|].
  destruct (key_eqb p k); simpl.
  - now rewrite app_nil_r.
  - now rewrite IH.
Qed.

Lemma keys_distinct_grouped_append (p : pyvalue) (it : DigestItem)
    (g : GroupedDigest) :
  keys_distinct g -> keys_distinct (grouped_append p it g).
Proof.
  induction g as [|[k grp] g IH]; simpl; [auto|].
  intros [Hk Hd]. destruct (key_eqb p k) eqn:E; simpl; [auto|].
  split; [|auto].
  apply Forall_forall. intros kg Hin.
  assert (Hf : In (fst kg) (map fst (grouped_append p it g)))
    by now apply in_map.
  rewrite keys_grouped_append in Hf. apply in_app_or in Hf.
  destruct Hf as [Hf | Hf].
  - apply in_map_iff in Hf. destruct Hf as (kg' & <- & Hin').
    rewrite Forall_forall in Hk. now apply Hk.
  - destruct (existsb _ g); simpl in Hf; [contradiction|].
    destruct Hf as [<- | []]. now rewrite key_eqb_sym.
Qed.

Lemma existsb_keys (h : pyvalue -> bool) (g : GroupedDigest) :
  existsb (fun kg => h (fst kg)) g = existsb h (map fst g).
Proof.
  induction g as [|kg g IH]; simpl; [reflexivity|]. now rewrite IH.
Qed.

Lemma filter_snoc {A} (f : A -> bool) (l : list A) (x : A) :
  filter f (l ++ [x]) = filter f l ++ (if f x then [x] else []).
Proof. rewrite filter_app. reflexivity. Qed.

Lemma filter_none {A} (f : A -> bool) (l : list A) :
  Forall (fun x => f x = false) l -> filter f l = [].
Proof.
  induction 1 as [|x l H _ IH]; simpl; [reflexivity|]. now rewrite H.
Qed.

Lemma grouping_of_nil : grouping_of [] [].
Proof. split; simpl; auto. Qed.

Lemma grouping_of_step (g : GroupedDigest) (seen : list DigestItem)
    (it : DigestItem) :
  grouping_of g seen ->
  hashable (primary_of it) = true ->
  grouping_of (grouped_append (primary_of it) it g) (seen ++ [it]).
Proof.
  intros [Hd Hs Hg Hc] Hh. set (p := primary_of it) in *.
  split.
  - now apply keys_distinct_grouped_append.
  - rewrite total_size_grouped_append, length_app, Hs. simpl. lia.
  - rewrite grouped_append_map by assumption.
    apply Forall_app. split.
    + apply Forall_forall. intros kg Hin.
      apply in_map_iff in Hin. destruct Hin as ([k grp] & <- & Hin).
      rewrite Forall_forall in Hg. destruct (Hg _ Hin) as [Hk Hgrp].
      simpl in *. unfold file_into. simpl.
      destruct (key_eqb p k) eqn:E; simpl; (split; [assumption|]);
        rewrite filter_snoc; change (filed_under k it) with (key_eqb p k);
        rewrite E.
      * now rewrite Hgrp.
      * now rewrite app_nil_r.
    + destruct (existsb (fun kg => key_eqb p (fst kg)) g) eqn:E;
        constructor; [|constructor]. simpl. split; [assumption|].
      rewrite filter_snoc. change (filed_under p it) with (key_eqb p p).
      rewrite key_eqb_refl by assumption.
      replace (filter (filed_under p) seen) with (@nil DigestItem);
        [reflexivity|].
      symmetry. apply filter_none.
      eapply Forall_impl; [|exact Hc]. intros it' Hcov.
      unfold filed_under. destruct (key_eqb (primary_of it') p) eqn:E'; auto.
      apply existsb_exists in Hcov. destruct Hcov as (k & Hin & Hk).
      rewrite existsb_keys in E.
      assert (existsb (key_eqb p) (map fst g) = true); [|congruence].
      apply existsb_exists. exists k. split; [assumption|].
      rewrite key_eqb_sym in E'. eapply key_eqb_trans; eassumption.
  - rewrite keys_grouped_append, existsb_keys. apply Forall_app. split.
    + eapply Forall_impl; [|exact Hc]. intros it' H.
      rewrite existsb_app, H. reflexivity.
    + constructor; [|constructor]. fold p. rewrite existsb_app.
      destruct (existsb (key_eqb p) (map fst g)); simpl; auto.
      now rewrite key_eqb_refl.
Qed.

Lemma group_loop_grouping (items : list DigestItem) :
  forall (g : GroupedDigest) (seen : list DigestItem),
  grouping_of g seen ->
  Forall (fun it => hashable (primary_of it) = true) items ->
  exists g', group_loop g items = Ok g' /\ grouping_of g' (seen ++ items).
Proof.
  induction items as [|it items IH]; intros g seen Hg Hh; simpl.
  - exists g. now rewrite app_nil_r.
  - inversion Hh as [|? ? Hit Hrest]; subst.
    rewrite primary_tag_total. simpl. rewrite Hit.
    destruct (IH _ _ (grouping_of_step it Hg Hit) Hrest) as (g' & Hl & Hg').
    exists g'. split; [assumption|]. now rewrite <- app_assoc in Hg'.
Qed.

Lemma group_loop_ok_hashable (items : list DigestItem) :
  forall (g g' : GroupedDigest),
  group_loop g items = Ok g' ->
  Forall (fun it => hashable (primary_of it) = true) items.
Proof.
  induction items as [|it items IH]; intros g g' H; [constructor|].
  simpl in H. rewrite primary_tag_total in H. simpl in H.
  destruct (hashable (primary_of it)) eqn:E; [|discriminate].
  constructor; [assumption|]. eapply IH; eassumption.
Qed.

Lemma keys_distinct_same_entry (g : GroupedDigest) :
  keys_distinct g ->
  forall k1 g1 k2 g2,
  In (k1, g1) g -> In (k2, g2) g -> key_eqb k1 k2 = true ->
  (k1, g1) = (k2, g2).
Proof.
  induction g as [|[k grp] g IH]; simpl; [contradiction|].
  intros [Hk Hd] k1 g1 k2 g2 [H1 | H1] [H2 | H2] He.
  - congruence.
  - inversion H1; subst. rewrite Forall_forall in Hk.
    specialize (Hk _ H2). simpl in Hk. congruence.
  - inversion H2; subst. rewrite Forall_forall in Hk.
    specialize (Hk _ H1). simpl in Hk. rewrite key_eqb_sym in He. congruence.
  - eapply IH; eassumption.
Qed.

(** The result of [group_by_topic], whenever every primary tag can be a
    dict key. *)
Lemma group_by_topic_spec (items : list DigestItem) :
  Forall (fun it => hashable (primary_of it) = true) items ->
  exists g,
    group_by_topic items = Ok g /\
    total_size g = List.length items /\
    keys_distinct g /\
    (forall k grp, In (k, grp) g -> grp = filter (filed_under k) items) /\
    (forall it, In it items -> exists k grp, In (k, grp) g /\ In it grp).
Proof.
  intros Hh.
  destruct (group_loop_grouping grouping_of_nil Hh) as (g & Hl & [Hd Hs Hg Hc]).
  simpl in *. exists g. repeat split; auto.
  - intros k grp Hin. rewrite Forall_forall in Hg.
    destruct (Hg _ Hin) as [_ H]. exact H.
  - intros it Hin. rewrite Forall_forall in Hc, Hg.
    specialize (Hc _ Hin). apply existsb_exists in Hc.
    destruct Hc as (k & Hk & He). apply in_map_iff in Hk.
    destruct Hk as ([k' grp] & <- & Hkg). simpl in He.
    exists k', grp. split; [assumption|].
    destruct (Hg _ Hkg) as [_ Hgrp]. simpl in Hgrp. rewrite Hgrp.
    apply filter_In. now split.
Qed.

(** C7: grouping conserves the items.  On every sequence of digest items
    (whose first tags can be dict keys, as strings can) [group_by_topic]
    returns a dict whose group sizes add up to the length of the input,
    in which every group is the input filtered by that group's key, so in
    input order, every item is in a group, and no item is in two groups. *)
Theorem group_by_topic_conserves (items : list DigestItem) :
  Forall (fun it => hashable (primary_of it) = true) items ->
  exists g,
    group_by_topic items = Ok g /\
    total_size g = List.length items /\
    (forall k grp, In (k, grp) g -> grp = filter (filed_under k) items) /\
    (forall it, In it items -> exists k grp, In (k, grp) g /\ In it grp) /\
    (forall it k1 g1 k2 g2,
        In (k1, g1) g -> In (k2, g2) g -> In it g1 -> In it g2 ->
        (k1, g1) = (k2, g2)).
Proof.
  intros Hh.
  destruct (group_by_topic_spec Hh) as (g & Hg & Hs & Hd & Hf & Hc).
  exists g. repeat split; auto.
  intros it k1 g1 k2 g2 H1 H2 I1 I2.
  apply (keys_distinct_same_entry g Hd _ _ _ _ H1 H2).
  rewrite (Hf _ _ H1) in I1. rewrite (Hf _ _ H2) in I2.
  apply filter_In in I1, I2. destruct I1 as [_ I1], I2 as [_ I2].
  unfold filed_under in *. rewrite key_eqb_sym in I1.
  eapply key_eqb_trans; eassumption.
Qed.

Lemma group_by_topic_conserves_witness :
  exists g,
    group_by_topic [item_tagged "a" (PList [PStr "AI"]);
                    item_tagged "b" PNone;
                    item_tagged "c" (PList [PStr "AI"; PStr "Markets"])]
      = Ok g /\
    total_size g = 3.
Proof.
  destruct (@group_by_topic_conserves
              [item_tagged "a" (PList [PStr "AI"]);
               item_tagged "b" PNone;
               item_tagged "c" (PList [PStr "AI"; PStr "Markets"])])
    as (g & Hg & Hs & _).
  - repeat constructor.
  - exists g. split; assumption.
Defined.

Lemma group_loop_other (items : list DigestItem) :
  Forall (fun it => nonempty_list (tags it) = false) items ->
  forall pre,
  group_loop [(PStr "Other", pre)] items = Ok [(PStr "Other", pre ++ items)].
Proof.
  induction 1 as [|it items Hit _ IH]; intros pre; simpl.
  - now rewrite app_nil_r.
  - rewrite primary_tag_total. unfold primary_of.
    destruct (tags it) as [| | | |[|x l]|]; try discriminate; simpl;
      rewrite IH, <- app_assoc; reflexivity.
Qed.

(** C10: grouping is total on tags that are not a non-empty list.  For an
    item whose [tags] is [None], [[]] or any value that is not a list, the
    primary tag is ["Other"] and filing the item raises nothing; in every
    dict that [group_by_topic] returns the item sits in the ["Other"]
    group; a batch of such items is always grouped.  Whatever [tags] is,
    [tags[0]] is evaluated on a non-empty list or not at all. *)
Theorem group_by_topic_other_total (it : DigestItem) :
  nonempty_list (tags it) = false ->
  primary_tag (tags it) = Ok (PStr "Other") /\
  (forall g rest,
      group_loop g (it :: rest) =
      group_loop (grouped_append (PStr "Other") it g) rest) /\
  (forall items g,
      In it items -> group_by_topic items = Ok g ->
      exists grp, In (PStr "Other", grp) g /\ In it grp) /\
  (forall items,
      Forall (fun it' => nonempty_list (tags it') = false) items ->
      group_by_topic (it :: items) = Ok [(PStr "Other", it :: items)]) /\
  (forall getitem0 t,
      primary_tag_with getitem0 t = Ok (PStr "Other") \/
      exists l, nonempty_list l = true /\
                primary_tag_with getitem0 t = getitem0 l).
Proof.
  intros Hne.
  assert (Hp : primary_of it = PStr "Other").
  { unfold primary_of. destruct (tags it) as [| | | |[|x l]|];
      try discriminate; reflexivity. }
  assert (Ht : primary_tag (tags it) = Ok (PStr "Other")).
  { now rewrite primary_tag_total, Hp. }
  split; [exact Ht|]. split; [|split; [|split]].
  - intros g rest. simpl. now rewrite Ht.
  - intros items g Hin Hg.
    destruct (group_by_topic_spec (group_loop_ok_hashable _ _ Hg))
      as (g' & Hg' & _ & _ & Hf & Hc).
    assert (g' = g) by congruence. subst g'.
    destruct (Hc _ Hin) as (k & grp & Hkg & Hit).
    exists grp. split; [|exact Hit].
    rewrite (Hf _ _ Hkg) in Hit. apply filter_In in Hit.
    destruct Hit as [_ Hit]. unfold filed_under in Hit. rewrite Hp in Hit.
    apply key_eqb_str in Hit. now subst k.
  - intros items Hall. unfold group_by_topic. simpl. rewrite Ht. simpl.
    now rewrite (group_loop_other Hall [it]).
  - intros getitem0 t.
    destruct (primary_tag_with_cases getitem0 t)
      as [[H ->] | [(_ & _ & ->) | (_ & _ & ->)]].
    + right. now exists t.
    + now left.
    + right. now exists (PList [PStr "Other"]).
Qed.

Lemma group_by_topic_other_total_witness :
  primary_tag (PStr "AI") = Ok (PStr "Other") /\
  group_by_topic [item_tagged "a" (PStr "AI"); item_tagged "b" (PList [])]
  = Ok [(PStr "Other",
         [item_tagged "a" (PStr "AI"); item_tagged "b" (PList [])])].
Proof.
  destruct (group_by_topic_other_total (item_tagged "a" (PStr "AI")))
    as (H1 & _ & _ & H4 & _).
  - reflexivity.
  - split; [exact H1|]. apply H4. repeat constructor.
Defined.

(* ------------------------------------------------------------------ *)
(** ** Sorting by the published string *)

Lemma ascii_compare_lt_trans (a b c : ascii) :
  Ascii.compare a b = Lt -> Ascii.compare b c = Lt -> Ascii.compare a c = Lt.
Proof.
  unfold Ascii.compare. rewrite !N.compare_lt_iff. lia.
Qed.

Lemma string_compare_lt_trans (s1 : string) :
  forall s2 s3,
  String.compare s1 s2 = Lt -> String.compare s2 s3 = Lt ->
  String.compare s1 s3 = Lt.
Proof.
  induction s1 as [|c1 s1 IH]; intros [|c2 s2] [|c3 s3]; simpl;
    try discriminate; auto.
  destruct (Ascii.compare c1 c2) eqn:E12; try discriminate;
    destruct (Ascii.compare c2 c3) eqn:E23; try discriminate; intros H1 H2.
  - apply Ascii.compare_eq_iff in E12, E23. subst.
    unfold Ascii.compare. rewrite N.compare_refl. eauto.
  - apply Ascii.compare_eq_iff in E12. subst. now rewrite E23.
  - apply Ascii.compare_eq_iff in E23. subst. now rewrite E12.
  - now rewrite (ascii_compare_lt_trans _ _ _ E12 E23).
Qed.


Lemma ltb_lt (s t : string) : String.ltb s t = true <-> String.compare s t = Lt.
Proof.
  unfold String.ltb. destruct (String.compare s t); split; congruence.
Qed.

Lemma ltb_asym (s t : string) : String.ltb s t = true -> String.ltb t s = false.
Proof.
  unfold String.ltb. rewrite (String.compare_antisym t s).
  destruct (String.compare s t); simpl; congruence.
Qed.

Lemma ge_key_trans (a b c : article) : ge_key a b -> ge_key b c -> ge_key a c.
Proof.
  unfold ge_key. intros Hab Hbc.
  destruct (String.ltb (sort_key a) (sort_key c)) eqn:Hac; [|reflexivity].
  apply ltb_lt in Hac.
  destruct (String.compare (sort_key b) (sort_key c)) eqn:E.
  - apply String.compare_eq_iff in E. rewrite <- E in Hac.
    apply ltb_lt in Hac. congruence.
  - apply ltb_lt in E. congruence.
  - assert (Hcb : String.compare (sort_key c) (sort_key b) = Lt).
    { rewrite String.compare_antisym, E. reflexivity. }
    pose proof (string_compare_lt_trans _ _ _ Hac Hcb) as H.
    apply ltb_lt in H. congruence.
Qed.

Lemma insert_desc_perm (x : article) (l : list article) :
  Permutation (x :: l) (insert_desc x l).
Proof.
  induction l as [|y l IH]; simpl; [reflexivity|].
  destruct (String.ltb (sort_key x) (sort_key y)); [|reflexivity].
  rewrite perm_swap. now constructor.
Qed.

Lemma sorted_desc_perm (l : list article) : Permutation l (sorted_desc l).
Proof.
  induction l as [|x l IH]; simpl; [constructor|].
  rewrite <- insert_desc_perm. now constructor.
Qed.

Lemma insert_desc_sorted (x : article) (l : list article) :
  StronglySorted ge_key l -> StronglySorted ge_key (insert_desc x l).
Proof.
  induction 1 as [|y l Hs IH Hy]; simpl.
  - repeat constructor.
  - destruct (String.ltb (sort_key x) (sort_key y)) eqn:E.
    + constructor; [assumption|].
      rewrite <- insert_desc_perm. constructor; [|assumption].
      now apply ltb_asym.
    + constructor; [now constructor|].
      constructor; [exact E|].
      eapply Forall_impl; [|exact Hy]. intros z Hz.
      eapply ge_key_trans; eassumption.
Qed.

Lemma sorted_desc_sorted (l : list article) :
  StronglySorted ge_key (sorted_desc l).
Proof.
  induction l as [|x l IH]; simpl; [constructor|].
  now apply insert_desc_sorted.
Qed.



(* ------------------------------------------------------------------ *)
(** ** The dedupe pass: lemmas *)

Create HintDb digest.
#[local] Hint Constructors subseq : digest.

(** Two names for the key of one article are one key. *)
Ltac same_key k' k :=
  assert (k' = k) by congruence; subst k'.


Lemma subseq_snoc_skip {A} (l1 l2 : list A) (x : A) :
  subseq l1 l2 -> subseq l1 (l2 ++ [x]).
Proof. induction 1; simpl; auto with digest. Qed.

Lemma subseq_snoc_keep {A} (l1 l2 : list A) (x : A) :
  subseq l1 l2 -> subseq (l1 ++ [x]) (l2 ++ [x]).
Proof. induction 1; simpl; auto with digest. Qed.


Lemma first_with_key_snoc (a b : article) (l : list article) :
  first_with_key a l -> first_with_key a (l ++ [b]).
Proof.
  intros (pre & post & -> & H). exists pre, (post ++ [b]).
  split; [|assumption]. now rewrite <- app_assoc.
Qed.

Lemma dict_mem_app (k : string) (u1 u2 : list (string * article)) :
  dict_mem k (u1 ++ u2) = dict_mem k u1 || dict_mem k u2.
Proof. apply existsb_app. Qed.

Lemma dict_mem_false (k : string) (u : list (string * article)) :
  dict_mem k u = false -> ~ In k (map fst u).
Proof.
  intros H Hin. apply in_map_iff in Hin. destruct Hin as (ka & <- & Hin).
  assert (dict_mem (fst ka) u = true); [|congruence].
  apply existsb_exists. exists ka. split; [assumption|apply String.eqb_refl].
Qed.

Lemma dedupe_state_nil (db : Db) : dedupe_state db [] [].
Proof. split; simpl; constructor. Qed.

Lemma dedupe_state_skip (db : Db) (u : list (string * article))
    (done : list article) (a : article) :
  dedupe_state db u done ->
  (forall k, derive_key a = Some k -> eligible db k = true ->
             dict_mem k u = true) ->
  dedupe_state db u (done ++ [a]).
Proof.
  intros [Hn Hk Hs Hc] Ha. split.
  - assumption.
  - eapply Forall_impl; [|exact Hk]. intros ka (H1 & H2 & H3).
    auto using first_with_key_snoc.
  - now apply subseq_snoc_skip.
  - apply Forall_app. split; [assumption|]. now constructor.
Qed.

Lemma dedupe_state_add (db : Db) (u : list (string * article))
    (done : list article) (a : article) (k : string) :
  dedupe_state db u done ->
  derive_key a = Some k -> eligible db k = true -> dict_mem k u = false ->
  dedupe_state db (u ++ [(k, a)]) (done ++ [a]).
Proof.
  intros [Hn Hk Hs Hc] Ha He Hm. split.
  - rewrite map_app. simpl. apply NoDup_app; [assumption|repeat constructor; tauto|].
    intros x Hx [<- | []]. now apply dict_mem_false in Hm.
  - apply Forall_app. split.
    + eapply Forall_impl; [|exact Hk]. intros ka (H1 & H2 & H3).
      auto using first_with_key_snoc.
    + constructor; [|constructor]. simpl. repeat split; auto.
      exists done, []. split; [reflexivity|].
      intros b Hb Heq. rewrite Forall_forall in Hc.
      rewrite Ha in Heq. rewrite (Hc b Hb k Heq He) in Hm. discriminate.
  - rewrite map_app. simpl. now apply subseq_snoc_keep.
  - apply Forall_app. split.
    + eapply Forall_impl; [|exact Hc]. intros b H k' H1 H2.
      rewrite dict_mem_app, (H k' H1 H2). reflexivity.
    + constructor; [|constructor]. intros k' H1 _. same_key k' k.
      rewrite dict_mem_app. simpl. rewrite String.eqb_refl.
      now rewrite orb_true_r.
Qed.

Lemma dedupe_loop_state (w : World) (db : Db) (l : list article) :
  forall (u : list (string * article)) (done : list article),
  dedupe_state db u done ->
  readable w l ->
  exists u', dedupe_loop w db u l = Ok u' /\ dedupe_state db u' (done ++ l).
Proof.
  induction l as [|a l IH]; intros u done Hst Hr; simpl.
  - exists u. now rewrite app_nil_r.
  - assert (Hr' : readable w l).
    { intros b k Hb. apply Hr. now right. }
    assert (Hnext : forall u1, dedupe_state db u1 (done ++ [a]) ->
              exists u', dedupe_loop w db u1 l = Ok u' /\
                         dedupe_state db u' (done ++ a :: l)).
    { intros u1 H1. destruct (IH _ _ H1 Hr') as (u' & Hl & Hs).
      exists u'. split; [assumption|]. now rewrite <- app_assoc in Hs. }
    destruct (derive_key a) as [k|] eqn:Hk.
    + destruct (k =? "") eqn:Hempty.
      * apply Hnext, dedupe_state_skip; [assumption|].
        intros k' Hk' He. same_key k' k.
        unfold eligible in He. now rewrite Hempty in He.
      * unfold is_seen. rewrite (Hr a k (or_introl eq_refl) Hk). simpl.
        destruct (has_key db k) eqn:Hseen.
        -- apply Hnext, dedupe_state_skip; [assumption|].
           intros k' Hk' He. same_key k' k.
           unfold eligible in He. rewrite Hseen in He.
           now rewrite andb_false_r in He.
        -- destruct (dict_mem k u) eqn:Hm.
           ++ apply Hnext, dedupe_state_skip; [assumption|].
              intros k' Hk' _. now same_key k' k.
           ++ apply Hnext, dedupe_state_add; auto.
              unfold eligible. now rewrite Hempty, Hseen.
    + apply Hnext, dedupe_state_skip; [assumption|]. intros k' Hk'. congruence.
Qed.







(* ------------------------------------------------------------------ *)
(** ** Fetching *)

(** An exception of the request leaves [fetch_newsapi] and ends the run
    before the feeds are read. *)
Lemma fetch_newsapi_raise_ends_run (w : World) (db : Db) (e : exn) :
  truthy_str (NEWSAPI_KEY w) = true ->
  requests_get w = Raise e ->
  fetch_newsapi w = Raise e /\ main w db = (db, Raise e).
Proof.
  intros Hkey Hget.
  assert (Hf : fetch_newsapi w = Raise e).
  { unfold fetch_newsapi. now rewrite Hkey, Hget. }
  split; [exact Hf|]. unfold main. now rewrite Hf.
Qed.

(** C1: a transport failure inside the NewsAPI adapter is not contained.
    With a key configured and the request raising, [fetch_newsapi] raises,
    [main] ends with that exception and the table untouched, although the
    configured feed is healthy and [fetch_rss_feeds] alone would have
    returned its entry. *)
Theorem newsapi_failure_aborts_run :
  fetch_newsapi newsapi_down = Raise ConnectionError /\
  main newsapi_down [] = ([], Raise ConnectionError) /\
  List.length (fetch_rss_feeds newsapi_down) = 1%nat.
Proof. repeat split. Qed.

(* ------------------------------------------------------------------ *)
(** ** A failing membership check *)

Lemma dedupe_loop_raises (w : World) (db : Db) (a : article) (k : string)
    (l : list article) :
  In a l -> derive_key a = Some k -> k <> "" -> select_fails w k = true ->
  forall u, dedupe_loop w db u l = Raise OperationalError.
Proof.
  intros Hin Hk Hne Hsel. induction l as [|b l IH]; [contradiction|].
  intros u. simpl.
  assert (Hrest : b <> a -> forall u', dedupe_loop w db u' l = Raise OperationalError).
  { intros Hb. apply IH. destruct Hin; [contradiction|assumption]. }
  destruct (derive_key b) as [kb|] eqn:Hkb.
  - destruct (kb =? "") eqn:Hempty.
    + apply Hrest. intros ->. apply String.eqb_eq in Hempty. congruence.
    + unfold is_seen. destruct (select_fails w kb) eqn:Hsb; [reflexivity|].
      assert (Hb : b <> a) by (intros ->; congruence).
      simpl. destruct (has_key db kb); [now apply Hrest|].
      destruct (dict_mem kb u); now apply Hrest.
  - apply Hrest. intros ->. congruence.
Qed.

(** C2, as the code has it: a membership check that fails is not taken
    for "unseen", and it is not confined to its item either.  If the
    check of any article of the batch raises, [dedupe_and_filter] raises,
    and a run whose fetched articles contain it ends with that exception
    before anything is enriched, recorded or sent. *)
Theorem is_seen_failure_aborts_run (w : World) (db : Db)
    (newsapi_articles : list article) (a : article) (k : string) :
  fetch_newsapi w = Ok newsapi_articles ->
  In a (newsapi_articles ++ fetch_rss_feeds w) ->
  derive_key a = Some k -> k <> "" -> select_fails w k = true ->
  is_seen w db k = Raise OperationalError /\
  (forall l, In a l -> dedupe_and_filter w db l = Raise OperationalError) /\
  main w db = (db, Raise OperationalError).
Proof.
  intros Hf Hin Hk Hne Hsel.
  assert (Hd : forall l, In a l ->
                 dedupe_and_filter w db l = Raise OperationalError).
  { intros l Hl. unfold dedupe_and_filter.
    now rewrite (dedupe_loop_raises w db a l Hl Hk Hne Hsel). }
  split; [unfold is_seen; now rewrite Hsel|]. split; [exact Hd|].
  unfold main. rewrite Hf. unfold merge_and_dedupe. rewrite Hd; [reflexivity|].
  eapply Permutation_in; [apply sorted_desc_perm|exact Hin].
Qed.

Lemma is_seen_failure_aborts_run_witness :
  main select_down_for_a [] = ([], Raise OperationalError).
Proof.
  apply (@is_seen_failure_aborts_run select_down_for_a []
           (map newsapi_article
                [api_story (Some "a") (Some "A") (Some "2024-01-02");
                 api_story (Some "b") (Some "B") (Some "2024-01-01")])
           (newsapi_article (api_story (Some "a") (Some "A") (Some "2024-01-02")))
           "a").
  - reflexivity.
  - left. reflexivity.
  - reflexivity.
  - discriminate.
  - reflexivity.
Defined.

(** Against C2 as stated: the check fails for the key of the first of two
    articles and the pass does not return the second one; it returns
    nothing at all. *)
Lemma is_seen_failure_not_isolated :
  ~ exists out,
      dedupe_and_filter select_down_for_a []
        [story "a" "2024-01-02"; story "b" "2024-01-01"] = Ok out /\
      In (story "b" "2024-01-01") out.
Proof.
  intros (out & H & _). vm_compute in H. discriminate.
Qed.

(* ------------------------------------------------------------------ *)
(** ** Enrichment and recording *)

Lemma add_seen_ok_connected (w : World) (db db' : Db) (aid : option string)
    (now : Z) (u : unit) :
  add_seen w db aid now = (db', Ok u) ->
  connect_fails w aid = false /\ close_fails w aid = false.
Proof.
  unfold add_seen.
  destruct (connect_fails w aid); [discriminate|].
  destruct (close_fails w aid); [discriminate|]. auto.
Qed.

Lemma enrich_loop_keeps (w : World) (cands : list article) (k : string) :
  forall i db processed,
  has_key db k = true ->
  has_key (fst (enrich_loop w cands i db processed)) k = true.
Proof.
  induction cands as [|a cands IH]; intros i db processed H; simpl.
  - exact H.
  - destruct (normalize_date w (published a)); [|exact H].
    pose proof (@add_seen_keeps w db (id a) (utcnow w i) k H) as H'.
    destruct (add_seen w db (id a) (utcnow w i)) as [db' [u|e]];
      simpl in *; [now apply IH|exact H'].
Qed.

(** What the table holds after part of the candidates, it holds after
    all of them. *)
Lemma enrich_loop_prefix_keeps (w : World) (pre post : list article)
    (k : string) :
  forall i db processed,
  has_key (fst (enrich_loop w pre i db processed)) k = true ->
  has_key (fst (enrich_loop w (pre ++ post) i db processed)) k = true.
Proof.
  induction pre as [|a pre IH]; intros i db processed H; simpl in *.
  - now apply enrich_loop_keeps.
  - destruct (normalize_date w (published a)); [|exact H].
    destruct (add_seen w db (id a) (utcnow w i)) as [db' [u|e]];
      [now apply IH|exact H].
Qed.

(** A loop that finishes has built the item of every candidate, in
    order. *)
Lemma enrich_loop_items (w : World) (cands : list article) :
  forall i db processed db1 items,
  enrich_loop w cands i db processed = (db1, Ok items) ->
  exists new, items = processed ++ new /\ Forall2 (item_of w) cands new.
Proof.
  induction cands as [|a cands IH]; intros i db processed db1 items H;
    simpl in H.
  - inversion H; subst. exists []. rewrite app_nil_r. split; [auto|constructor].
  - destruct (normalize_date w (published a)) as [d|] eqn:Hd;
      [|discriminate].
    destruct (add_seen w db (id a) (utcnow w i)) as [db' [u|e]];
      [|discriminate].
    destruct (IH _ _ _ _ _ H) as (new & -> & Hnew).
    exists (enrich w a d :: new). rewrite <- app_assoc. split; [reflexivity|].
    constructor; [now exists d|exact Hnew].
Qed.

(** The loop finishes when neither [normalize_date] nor the connection
    of [add_seen] raises, whatever the language model does. *)
Lemma enrich_loop_smooth (w : World) (cands : list article) :
  Forall (smooth w) cands ->
  forall i db processed,
  exists db1 items, enrich_loop w cands i db processed = (db1, Ok items).
Proof.
  induction 1 as [|a cands (Hn & Hc & Hcl) _ IH]; intros i db processed;
    simpl.
  - now exists db, processed.
  - destruct (normalize_date w (published a)) as [d|]; [|discriminate].
    pose proof (@add_seen_returns w db (id a) (utcnow w i) Hc Hcl) as Hr.
    destruct (add_seen w db (id a) (utcnow w i)) as [db' r]. simpl in Hr.
    subst r. apply IH.
Qed.

(** In a loop that finishes, where inserts are committed, the id of a
    candidate is in the table once its insert could be executed. *)
Lemma enrich_loop_records (w : World) (cands : list article) (a : article)
    (k : string) :
  commits w = true ->
  In a cands -> id a = Some k -> insert_fails w (Some k) = false ->
  forall i db processed db1 items,
  enrich_loop w cands i db processed = (db1, Ok items) ->
  has_key db1 k = true.
Proof.
  intros Hc Hin Hid Hins.
  induction cands as [|b cands IH]; [contradiction|].
  intros i db processed db1 items H. simpl in H.
  destruct (normalize_date w (published b)) as [d|]; [|discriminate].
  destruct (add_seen w db (id b) (utcnow w i)) as [db' [u|e]] eqn:Ha;
    [|discriminate].
  destruct Hin as [-> | Hin]; [|now apply (IH Hin _ _ _ _ _ H)].
  pose proof (@enrich_loop_keeps w cands k (S i) db'
                (processed ++ [enrich w a d])) as Hk.
  rewrite H in Hk. apply Hk.
  destruct (add_seen_ok_connected _ _ _ _ Ha) as [Hconn _].
  rewrite Hid in Ha, Hconn.
  pose proof (@add_seen_records w db k (utcnow w i) Hc Hconn Hins) as Hr.
  now rewrite Ha in Hr.
Qed.

(** Where inserts are not committed the loop never changes the table. *)
Lemma enrich_loop_uncommitted (w : World) (cands : list article) :
  commits w = false ->
  forall i db processed, fst (enrich_loop w cands i db processed) = db.
Proof.
  intros Hc. induction cands as [|a cands IH]; intros i db processed; simpl;
    [reflexivity|].
  destruct (normalize_date w (published a)); [|reflexivity].
  pose proof (@add_seen_uncommitted w db (id a) (utcnow w i) Hc) as Hu.
  destruct (add_seen w db (id a) (utcnow w i)) as [db' [u|e]]; simpl in *;
    subst db'; [apply IH|reflexivity].
Qed.

(** Candidates without an id leave no trace in the table. *)
Lemma enrich_loop_missing_id (w : World) (cands : list article) :
  Forall (fun a => id a = None) cands ->
  forall i db processed,
  fst (enrich_loop w cands i db processed) = db.
Proof.
  induction 1 as [|a cands Ha _ IH]; intros i db processed; simpl;
    [reflexivity|].
  destruct (normalize_date w (published a)); [|reflexivity].
  assert (Hn : fst (add_seen w db (id a) (utcnow w i)) = db).
  { destruct (add_seen_cases w db (id a) (utcnow w i))
      as [H | (k & Hk & _)]; [exact H|congruence]. }
  destruct (add_seen w db (id a) (utcnow w i)) as [db' [u|e]]; simpl in *;
    subst db'; [apply IH|reflexivity].
Qed.

(** C3: what [main] records is [a.get('id')], not the key the dedupe pass
    derived.  A NewsAPI article without a url has its title for a key; the
    run enriches and sends it, the insert of [None] is refused and
    swallowed, the table stays empty, and the next run lets the same
    article through again. *)
Theorem recorded_id_is_not_derived_key :
  let a := newsapi_article (api_story None (Some "T") (Some "2024-01-02")) in
  fetch_newsapi untitled_url = Ok [a] /\
  derive_key a = Some "T" /\
  merge_and_dedupe untitled_url [] [a] = Ok [a] /\
  main untitled_url [] = ([], Ok Sent) /\
  has_key (fst (main untitled_url [])) "T" = false /\
  merge_and_dedupe untitled_url (fst (main untitled_url [])) [a] = Ok [a].
Proof. repeat split. Qed.

Lemma call_llm_fallback (w : World) (a : article) (normalized : option string) :
  is_ok (chat_completion w (title a) (url a)) = false ->
  enrich w a normalized = fallback_item a normalized.
Proof.
  intros H. unfold enrich, call_llm_for_article, fallback_item.
  destruct (chat_completion w (title a) (url a)); [discriminate|].
  unfold default_enrichment, py_or, truthy_str.
  destruct (title a) as [t|]; [|reflexivity].
  destruct (t =? "") eqn:E; [|reflexivity].
  apply String.eqb_eq in E. now subst.
Qed.

(** C4, as the code has it: the item built for an article carries tags
    [["Other"]], sentiment Neutral and score 0.5, and so a well-formed
    Enrichment, when the chat completion fails, when its answer is not
    JSON, and when the answer decodes to something that is not an object;
    when it decodes to an object, [tags], [sentiment] and [score] are what
    the object holds under these keys, [None] when absent, and the
    Enrichment is well-formed exactly when those three are. *)
Theorem enrichment_well_formed_unless_object (w : World) (a : article)
    (normalized : option string) :
  (is_ok (chat_completion w (title a) (url a)) = false \/
   (exists content,
       chat_completion w (title a) (url a) = Ok content /\
       forall d, json_loads w (strip content) <> Ok (PDict d)) ->
   tags (enrich w a normalized) = PList [PStr "Other"] /\
   sentiment (enrich w a normalized) = PStr "Neutral" /\
   score (enrich w a normalized) = PNum (1 # 2) /\
   well_formed_enrichment (enrich w a normalized) = true) /\
  (forall content d,
      chat_completion w (title a) (url a) = Ok content ->
      json_loads w (strip content) = Ok (PDict d) ->
      tags (enrich w a normalized) = dict_get d "tags" /\
      sentiment (enrich w a normalized) = dict_get d "sentiment" /\
      score (enrich w a normalized) = dict_get d "score" /\
      well_formed_enrichment (enrich w a normalized) = fields_ok d).
Proof.
  split.
  - intros [Hfail | (content & Hc & Hj)].
    + rewrite (call_llm_fallback w a normalized Hfail). repeat split.
    + unfold well_formed_enrichment, enrich, call_llm_for_article.
      rewrite Hc.
      destruct (json_loads w (strip content)) as [[|b|q|s|l|d]|e];
        try (repeat split; fail).
      now contradiction (Hj d).
  - intros content d Hc Hj.
    unfold well_formed_enrichment, fields_ok, enrich, call_llm_for_article.
    rewrite Hc, Hj. repeat split.
Qed.

Lemma enrichment_well_formed_unless_object_witness :
  tags (enrich quiet_world (story "a" "2024-01-02") None) = PList [PStr "Other"] /\
  sentiment (enrich quiet_world (story "a" "2024-01-02") None) = PStr "Neutral" /\
  score (enrich quiet_world (story "a" "2024-01-02") None) = PNum (1 # 2) /\
  well_formed_enrichment (enrich quiet_world (story "a" "2024-01-02") None)
  = true.
Proof.
  apply (proj1 (enrichment_well_formed_unless_object quiet_world
                  (story "a" "2024-01-02") None)).
  left. reflexivity.
Defined.

(** Against C4 as stated: the model answers [{}]; the item's tags,
    sentiment and score are [None]. *)
Lemma empty_object_enrichment_ill_formed :
  let a := newsapi_article (api_story (Some "a") (Some "A") (Some "2024-01-02")) in
  enrich_loop empty_object_answer [a] 0 [] [] =
    ([{| article_id := "a"; seen_at := 0 |}],
     Ok [enrich empty_object_answer a None]) /\
  tags (enrich empty_object_answer a None) = PNone /\
  sentiment (enrich empty_object_answer a None) = PNone /\
  score (enrich empty_object_answer a None) = PNone /\
  well_formed_enrichment (enrich empty_object_answer a None) = false.
Proof. repeat split. Qed.

(** One item per candidate, whatever the language model does, as long as
    the loop gets past every candidate; with every chat completion
    failing, each item carries the article's own title for a summary (the
    empty string when there is no title) and the defaults. *)
Lemma enrich_loop_one_item_each (w : World) (db : Db)
    (candidates : list article) :
  Forall (smooth w) candidates ->
  exists db1 processed,
    enrich_loop w candidates 0 db [] = (db1, Ok processed) /\
    List.length processed = List.length candidates /\
    Forall2 (item_of w) candidates processed /\
    ((forall a, In a candidates ->
                is_ok (chat_completion w (title a) (url a)) = false) ->
     Forall2 (fun a it => exists normalized,
                  normalize_date w (published a) = Ok normalized /\
                  it = fallback_item a normalized) candidates processed).
Proof.
  intros Hs.
  destruct (enrich_loop_smooth Hs 0 db []) as (db1 & items & Hl).
  destruct (@enrich_loop_items w candidates 0 db [] db1 items Hl)
    as (new & -> & Hnew).
  exists db1, new. simpl in *. split; [exact Hl|].
  split; [symmetry; eapply Forall2_length; exact Hnew|].
  split; [exact Hnew|].
  intros Hfail. clear Hl Hs.
  induction Hnew as [|a it cands new (d & Hd & ->) _ IH]; constructor.
  - exists d. split; [exact Hd|]. apply call_llm_fallback, Hfail. now left.
  - apply IH. intros b Hb. apply Hfail. now right.
Qed.

(** C5: enrichment does not cover every candidate.  [normalize_date] has
    no handler around [astimezone], unlike the call of the language model
    next to it: a candidate whose published date cannot be shifted to the
    target zone passes the dedupe stage, then the OverflowError leaves
    [normalize_date], the loop and [main]; no digest item is built,
    nothing is recorded and nothing is sent. *)
Theorem overflowing_date_ends_run :
  let a :=
    newsapi_article (api_story (Some "a") (Some "A") (Some "0001-01-01")) in
  merge_and_dedupe year_one_story [] [a] = Ok [a] /\
  normalize_date year_one_story (published a) = Raise OverflowError /\
  enrich_loop year_one_story [a] 0 [] [] = ([], Raise OverflowError) /\
  main year_one_story [] = ([], Raise OverflowError).
Proof. repeat split. Qed.

(* ------------------------------------------------------------------ *)
(** ** Delivery *)

(** C9: a delivery failure leaves the table as the loop left it.  When
    the candidates have been enriched and recorded and [build_and_send]
    raises, the run ends with that exception and nothing is taken back:
    every key the table held before the run or after any number of
    iterations is still there.  Where inserts are committed that includes
    the id of every candidate whose insert could be executed; where they
    are not, the loop had stored nothing and the table is the one the run
    started with. *)
Theorem delivery_failure_keeps_seen (w : World) (db db1 : Db)
    (newsapi_articles candidates : list article)
    (processed : list DigestItem) (e : exn) :
  fetch_newsapi w = Ok newsapi_articles ->
  merge_and_dedupe w db (newsapi_articles ++ fetch_rss_feeds w)
    = Ok candidates ->
  enrich_loop w candidates 0 db [] = (db1, Ok processed) ->
  processed <> [] ->
  build_and_send w processed = Raise e ->
  main w db = (db1, Raise e) /\
  (forall k, has_key db k = true -> has_key db1 k = true) /\
  (forall pre post k,
      candidates = pre ++ post ->
      has_key (fst (enrich_loop w pre 0 db [])) k = true ->
      has_key db1 k = true) /\
  (commits w = true ->
   forall a k,
     In a candidates -> id a = Some k -> insert_fails w (Some k) = false ->
     has_key db1 k = true) /\
  (commits w = false -> db1 = db).
Proof.
  intros Hf Hm Hl Hne Hsend.
  assert (Hfst : fst (enrich_loop w candidates 0 db []) = db1)
    by now rewrite Hl.
  split; [|split; [|split; [|split]]].
  - unfold main. rewrite Hf, Hm, Hl.
    destruct processed; [contradiction|]. now rewrite Hsend.
  - intros k Hk. rewrite <- Hfst. now apply enrich_loop_keeps.
  - intros pre post k -> Hk. rewrite <- Hfst.
    now apply enrich_loop_prefix_keeps.
  - intros Hc a k Hin Hid Hins.
    now apply (enrich_loop_records w candidates a Hc Hin Hid Hins _ _ _ Hl).
  - intros Hc. rewrite <- Hfst. now apply enrich_loop_uncommitted.
Qed.

Lemma delivery_failure_keeps_seen_witness :
  main sendgrid_down [] =
  ([{| article_id := "a"; seen_at := 0 |};
    {| article_id := "b"; seen_at := 1 |}], Raise SendGridError).
Proof.
  eapply (@delivery_failure_keeps_seen sendgrid_down []).
  - reflexivity.
  - reflexivity.
  - reflexivity.
  - discriminate.
  - reflexivity.
Defined.

(* ------------------------------------------------------------------ *)
(** * Further properties of the pipeline *)

(** ** The feed list *)

Lemma lstrip_starts_nonspace (s : string) : starts_nonspace (lstrip s) = true.
Proof.
  induction s as [|c s IH]; simpl; [reflexivity|].
  destruct (is_space c) eqn:E; [exact IH|]. simpl. now rewrite E.
Qed.

Lemma lstrip_fixed (s : string) : starts_nonspace s = true -> lstrip s = s.
Proof.
  destruct s as [|c s]; simpl; [reflexivity|].
  now destruct (is_space c).
Qed.

Lemma rstrip_starts_nonspace (s : string) :
  starts_nonspace s = true -> starts_nonspace (rstrip s) = true.
Proof.
  destruct s as [|c s]; simpl; [reflexivity|]. intros H.
  destruct (rstrip s).
  - destruct (is_space c) eqn:E; [discriminate|]. simpl. now rewrite E.
  - exact H.
Qed.

Lemma rstrip_idempotent (s : string) : rstrip (rstrip s) = rstrip s.
Proof.
  induction s as [|c s IH]; simpl; [reflexivity|].
  destruct (rstrip s) as [|c' r] eqn:E.
  - destruct (is_space c) eqn:Ec; simpl; [reflexivity|]. now rewrite Ec.
  - simpl in *. now rewrite IH.
Qed.

Lemma strip_idempotent (s : string) : strip (strip s) = strip s.
Proof.
  unfold strip.
  rewrite (lstrip_fixed (rstrip (lstrip s))).
  - apply rstrip_idempotent.
  - apply rstrip_starts_nonspace, lstrip_starts_nonspace.
Qed.

Lemma split_comma_nonempty (s : string) : split_comma s <> [].
Proof.
  induction s as [|c s IH]; simpl; [discriminate|].
  destruct (Ascii.eqb c ","%char); [discriminate|].
  destruct (split_comma s); discriminate.
Qed.

(** [','.join(s.split(','))] is [s]. *)
Lemma split_comma_join (s : string) :
  String.concat "," (split_comma s) = s.
Proof.
  induction s as [|c s IH]; [reflexivity|].
  simpl split_comma. pose proof (split_comma_nonempty s) as Hne.
  destruct (Ascii.eqb c ","%char) eqn:E.
  - apply Ascii.eqb_eq in E. subst c.
    destruct (split_comma s) as [|h t]; [contradiction|].
    change (String.concat "," ("" :: h :: t))
      with (String "," (String.concat "," (h :: t))).
    now rewrite IH.
  - destruct (split_comma s) as [|h [|h' t]]; [contradiction| |].
    + simpl in *. now rewrite IH.
    + change (String.concat "," (String c h :: h' :: t))
        with (String c (String.concat "," (h :: h' :: t))).
      now rewrite IH.
Qed.

(** X1: the feeds read from [RSS_FEEDS].  Every feed the comprehension
    keeps is a non-empty string without white space at either end, and it
    is the stripped form of one of the comma-separated pieces; joining the
    pieces with commas gives [RSS_FEEDS] back, so no piece is invented. *)
Theorem feeds_of_clean (s : string) :
  Forall (fun f => f <> "" /\ strip f = f /\
                   exists piece, In piece (split_comma s) /\ f = strip piece)
         (feeds_of s) /\
  String.concat "," (split_comma s) = s.
Proof.
  split; [|apply split_comma_join].
  apply Forall_forall. intros f Hf. unfold feeds_of in Hf.
  apply filter_In in Hf. destruct Hf as [Hin Hne].
  apply in_map_iff in Hin. destruct Hin as (piece & <- & Hp).
  repeat split.
  - apply String.eqb_neq. now destruct (strip piece =? "").
  - apply strip_idempotent.
  - now exists piece.
Qed.

(* ------------------------------------------------------------------ *)
(** ** The two fetchers *)

Lemma py_or_same (x y : option string) : py_or (py_or x x) y = py_or x y.
Proof.
  unfold py_or. destruct (truthy_str x) eqn:E; now rewrite E.
Qed.

(** X2: what [fetch_newsapi] returns.  Whenever it returns, every article
    has its url for an id, so its key is the url, or the title when the
    url is missing or empty; a non-empty result is the payload of a
    successful request with status "ok", one article per entry and in
    order.  Without a key the result is the empty list whatever the
    request would have done. *)
Theorem fetch_newsapi_articles (w : World) (l : list article) :
  fetch_newsapi w = Ok l ->
  Forall (fun a => id a = url a /\ derive_key a = py_or (url a) (title a)) l /\
  (l <> [] ->
   truthy_str (NEWSAPI_KEY w) = true /\
   exists data, requests_get w = Ok data /\ status data = Some "ok" /\
                l = map newsapi_article (articles data)) /\
  (truthy_str (NEWSAPI_KEY w) = false -> l = []).
Proof.
  unfold fetch_newsapi. intros H.
  destruct (truthy_str (NEWSAPI_KEY w)) eqn:Hkey; simpl in H.
  - destruct (requests_get w) as [data|e] eqn:Hget; [|discriminate].
    simpl in H. inversion H as [Hl]; clear H.
    split; [|split; [|discriminate]].
    + destruct (status_ok data); [|constructor].
      apply Forall_forall. intros a Ha. apply in_map_iff in Ha.
      destruct Ha as (x & <- & _). split; [reflexivity|].
      unfold derive_key. simpl. apply py_or_same.
    + unfold status_ok. intros Hne. split; [reflexivity|]. exists data.
      destruct (status data) as [st|]; [|now contradiction Hne].
      destruct (st =? "ok") eqn:Hok; [|now contradiction Hne].
      apply String.eqb_eq in Hok. now subst st.
  - inversion H. split; [constructor|].
    split; [intros Hne; now contradiction Hne|reflexivity].
Qed.

Lemma fetch_newsapi_articles_witness :
  Forall (fun a => id a = url a /\ derive_key a = py_or (url a) (title a))
    (map newsapi_article
         [api_story (Some "a") (Some "A") (Some "2024-01-02");
          api_story (Some "b") (Some "B") (Some "2024-01-01")]).
Proof.
  apply (@fetch_newsapi_articles all_well). reflexivity.
Defined.

Lemma entry_article_ok_iff (feed : string) (p : parsed_feed) (e : feed_entry) :
  is_ok (entry_article feed p e) = identifiable e.
Proof.
  unfold entry_article, identifiable.
  destruct (truthy_str (e_link e)); [reflexivity|].
  destruct (truthy_str (e_id e)); [reflexivity|].
  now destruct (e_title e).
Qed.

Lemma feed_entries_from_entry (feed : string) (p : parsed_feed)
    (es : list feed_entry) (a : article) :
  In a (feed_entries feed p es) ->
  exists e, In e es /\ entry_article feed p e = Ok a.
Proof.
  induction es as [|e es IH]; simpl; [contradiction|].
  destruct (entry_article feed p e) as [a'|] eqn:E; [|contradiction].
  intros [<- | Hin].
  - exists e. auto.
  - destruct (IH Hin) as (e' & He' & Ha). exists e'. auto.
Qed.

Lemma py_or_default_some (x y : option string) (d : string) :
  exists s, py_or x (py_or y (Some d)) = Some s.
Proof.
  assert (Hy : exists s, py_or y (Some d) = Some s).
  { unfold py_or. destruct y as [t|]; simpl; [|now exists d].
    destruct (t =? ""); simpl; [now exists d|now exists t]. }
  unfold py_or at 1. destruct x as [s|]; simpl; [|exact Hy].
  destruct (s =? ""); simpl; [exact Hy|now exists s].
Qed.

(** X3: the shape of an article that came from a feed.  Its id and its
    published value are strings, never [None]; its source is a non-empty
    string, the feed's title or else the feed's address; its url is the
    entry's link, and when there is a link the id is that link. *)
Theorem rss_article_shape (w : World) (a : article) :
  In a (fetch_rss_feeds w) ->
  (exists s, id a = Some s) /\
  (exists p, published a = Some p) /\
  truthy_str (source a) = true /\
  (truthy_str (url a) = true -> id a = url a).
Proof.
  unfold fetch_rss_feeds. intros Hin. apply in_flat_map in Hin.
  destruct Hin as (feed & Hfeed & Ha).
  assert (Hne : truthy_str (Some feed) = true).
  { unfold feeds_of in Hfeed. apply filter_In in Hfeed. now destruct Hfeed. }
  destruct (feedparser_parse w feed) as [p|]; [|contradiction].
  apply feed_entries_from_entry in Ha. destruct Ha as (e & _ & He).
  unfold entry_article in He.
  destruct (py_or_default_some (e_published e) (e_updated e) "") as (pub & Hpub).
  assert (Hsrc : truthy_str (py_or (feed_title p) (Some feed)) = true).
  { unfold py_or. now destruct (truthy_str (feed_title p)) eqn:E. }
  destruct (truthy_str (e_link e)) eqn:Hlink; simpl in He.
  - inversion He; subst a; clear He; simpl.
    destruct (e_link e) as [s|]; [|discriminate]. repeat split; eauto.
  - destruct (truthy_str (e_id e)) eqn:Hid; simpl in He.
    + inversion He; subst a; clear He; simpl.
      destruct (e_id e) as [s|]; [|discriminate].
      repeat split; eauto. congruence.
    + destruct (e_title e) as [t|]; simpl in He; [|discriminate].
      inversion He; subst a; clear He; simpl.
      repeat split; eauto. congruence.
Qed.

Lemma rss_article_shape_witness :
  exists s, id {| id := Some "http://feed/1"; title := Some "From the feed";
                  url := Some "http://feed/1"; source := Some "Feed";
                  published := Some "2024-01-01" |} = Some s.
Proof.
  apply (@rss_article_shape all_well). left. reflexivity.
Defined.

(** X4: an entry without link, id and title ends its feed.  The entries
    before it are kept, one article each; the entry itself and everything
    after it in the same feed are dropped, identifiable or not. *)
Theorem feed_cut_at_unidentifiable (feed : string) (p : parsed_feed)
    (good : list feed_entry) (bad : feed_entry) (rest : list feed_entry) :
  Forall (fun e => identifiable e = true) good ->
  identifiable bad = false ->
  feed_entries feed p (good ++ bad :: rest) = feed_entries feed p good /\
  List.length (feed_entries feed p (good ++ bad :: rest)) = List.length good /\
  Forall2 (fun e a => entry_article feed p e = Ok a)
          good (feed_entries feed p (good ++ bad :: rest)).
Proof.
  intros Hgood Hbad.
  assert (Hraise : feed_entries feed p (bad :: rest) = []).
  { simpl. pose proof (entry_article_ok_iff feed p bad) as H.
    rewrite Hbad in H. now destruct (entry_article feed p bad). }
  induction Hgood as [|e good He _ IH].
  - rewrite app_nil_l, Hraise. simpl. auto.
  - simpl. pose proof (entry_article_ok_iff feed p e) as H. rewrite He in H.
    destruct (entry_article feed p e) as [a|] eqn:Ea; [|discriminate].
    destruct IH as (IH1 & IH2 & IH3). simpl.
    rewrite IH1 in *. repeat split; auto.
Qed.

Lemma feed_cut_at_unidentifiable_witness :
  List.length
    (feed_entries "http://feed/rss" {| entries := []; feed_title := None |}
       ([entry (Some "http://feed/1") None None]
        ++ entry None None None :: [entry (Some "http://feed/3") None None]))
  = 1%nat.
Proof.
  apply (@feed_cut_at_unidentifiable "http://feed/rss"
           {| entries := []; feed_title := None |}
           [entry (Some "http://feed/1") None None]
           (entry None None None)
           [entry (Some "http://feed/3") None None]).
  - repeat constructor.
  - reflexivity.
Defined.

(* ------------------------------------------------------------------ *)
(** ** The table across a run *)

Lemma has_key_false_notin (db : Db) (k : string) :
  has_key db k = false -> ~ In k (map article_id db).
Proof.
  intros H Hin. apply in_map_iff in Hin. destruct Hin as (r & <- & Hr).
  assert (has_key db (article_id r) = true); [|congruence].
  apply existsb_exists. exists r. split; [assumption|apply String.eqb_refl].
Qed.

Lemma add_seen_nodup (w : World) (db : Db) (aid : option string) (now : Z) :
  NoDup (map article_id db) ->
  NoDup (map article_id (fst (add_seen w db aid now))).
Proof.
  intros H. destruct (add_seen_cases w db aid now) as [-> | (k & _ & Hk & ->)];
    [assumption|].
  rewrite map_app. simpl. apply NoDup_app; [assumption|repeat constructor; tauto|].
  intros x Hx [<- | []]. now apply has_key_false_notin in Hk.
Qed.

Lemma add_seen_extends (w : World) (db : Db) (aid : option string) (now : Z) :
  exists extra, fst (add_seen w db aid now) = db ++ extra /\
                (List.length extra <= 1)%nat.
Proof.
  destruct (add_seen_cases w db aid now) as [-> | (k & _ & _ & ->)].
  - exists []. rewrite app_nil_r. auto.
  - eexists. split; [reflexivity|]. simpl. lia.
Qed.

(** X5: recording is local.  Whether it returns or raises, [add_seen]
    changes the answer of the table for no key other than the one it was
    given, keeps the rows it found and adds at most one. *)
Theorem add_seen_frame (w : World) (db : Db) (aid : option string) (now : Z)
    (k' : string) :
  aid <> Some k' ->
  has_key (fst (add_seen w db aid now)) k' = has_key db k' /\
  exists extra, fst (add_seen w db aid now) = db ++ extra /\
                (List.length extra <= 1)%nat.
Proof.
  intros Hne. split; [|apply add_seen_extends].
  destruct (add_seen_cases w db aid now) as [-> | (k & -> & _ & ->)];
    [reflexivity|].
  rewrite has_key_app. simpl.
  destruct (k =? k') eqn:E; [|apply orb_false_r].
  apply String.eqb_eq in E. congruence.
Qed.

Lemma add_seen_frame_witness :
  has_key (fst (add_seen quiet_world [] (Some "a") 1)) "b" = has_key [] "b".
Proof.
  apply (@add_seen_frame quiet_world [] (Some "a") 1 "b"). discriminate.
Defined.

Lemma enrich_loop_extends (w : World) (cands : list article) :
  forall i db processed,
  exists extra,
    fst (enrich_loop w cands i db processed) = db ++ extra /\
    (List.length extra <= List.length cands)%nat.
Proof.
  induction cands as [|a cands IH]; intros i db processed; simpl.
  - exists []. rewrite app_nil_r. auto.
  - destruct (normalize_date w (published a)) as [d|].
    + destruct (add_seen_extends w db (id a) (utcnow w i)) as (e1 & He1 & H1).
      destruct (add_seen w db (id a) (utcnow w i)) as [db' [u|e]];
        simpl in He1; subst db'.
      * destruct (IH (S i) (db ++ e1) (processed ++ [enrich w a d]))
          as (e2 & -> & H2).
        exists (e1 ++ e2). rewrite app_assoc, length_app.
        split; [reflexivity|lia].
      * exists e1. simpl. split; [reflexivity|lia].
    + exists []. rewrite app_nil_r. simpl. split; [reflexivity|lia].
Qed.

Lemma enrich_loop_nodup (w : World) (cands : list article) :
  forall i db processed,
  NoDup (map article_id db) ->
  NoDup (map article_id (fst (enrich_loop w cands i db processed))).
Proof.
  induction cands as [|a cands IH]; intros i db processed H; simpl;
    [assumption|].
  destruct (normalize_date w (published a)); [|exact H].
  pose proof (@add_seen_nodup w db (id a) (utcnow w i) H) as H'.
  destruct (add_seen w db (id a) (utcnow w i)) as [db' [u|e]]; simpl in *;
    [now apply IH|exact H'].
Qed.

Lemma py_slice_to_length {A} (n : Z) (l : list A) :
  (0 <= n)%Z -> (Z.of_nat (List.length (py_slice_to n l)) <= n)%Z.
Proof.
  intros H. unfold py_slice_to. apply Z.leb_le in H. rewrite H.
  apply Z.leb_le in H. rewrite length_firstn. lia.
Qed.

Lemma merge_and_dedupe_length (w : World) (db : Db) (l out : list article) :
  (0 <= MAX_STORIES w)%Z ->
  merge_and_dedupe w db l = Ok out ->
  (Z.of_nat (List.length out) <= MAX_STORIES w)%Z.
Proof.
  unfold merge_and_dedupe. intros Hmax H.
  destruct (dedupe_and_filter w db (sorted_desc l)); [|discriminate].
  simpl in H. inversion H. now apply py_slice_to_length.
Qed.

(** Once the candidates are there, the table after the run is the table
    the enrichment loop left, however the loop and the delivery ended. *)
Lemma main_table_after_loop (w : World) (db : Db)
    (newsapi_articles candidates : list article) :
  fetch_newsapi w = Ok newsapi_articles ->
  merge_and_dedupe w db (fetched w newsapi_articles) = Ok candidates ->
  fst (main w db) = fst (enrich_loop w candidates 0 db []).
Proof.
  unfold main, fetched. intros -> ->.
  destruct (enrich_loop w candidates 0 db [])
    as [db' [[|it processed]|e]]; try reflexivity.
  now destruct (build_and_send w (it :: processed)).
Qed.

(** The table after a run is the table the enrichment loop left, or the
    one the run started with when it never got that far. *)
Lemma main_table (w : World) (db : Db) :
  fst (main w db) = db \/
  exists newsapi_articles candidates,
    fetch_newsapi w = Ok newsapi_articles /\
    merge_and_dedupe w db (fetched w newsapi_articles) = Ok candidates /\
    fst (main w db) = fst (enrich_loop w candidates 0 db []).
Proof.
  destruct (fetch_newsapi w) as [news|] eqn:Hf;
    [|left; unfold main; now rewrite Hf].
  destruct (merge_and_dedupe w db (fetched w news)) as [cands|] eqn:Hm.
  - right. exists news, cands. split; [reflexivity|]. split; [exact Hm|].
    now apply (main_table_after_loop w db Hf Hm).
  - left. unfold main. unfold fetched in Hm. now rewrite Hf, Hm.
Qed.

(** X6: a run only appends to the table.  However the run ends, the
    table afterwards is the table before with rows added at its end; no
    row is changed or removed, no key occurs twice if none did before,
    and with a non-negative [MAX_STORIES] at most that many rows are
    added. *)
Theorem main_append_only (w : World) (db : Db) :
  NoDup (map article_id db) ->
  exists extra,
    fst (main w db) = db ++ extra /\
    NoDup (map article_id (fst (main w db))) /\
    ((0 <= MAX_STORIES w)%Z ->
     (Z.of_nat (List.length extra) <= MAX_STORIES w)%Z).
Proof.
  intros Hnd.
  destruct (main_table w db) as [-> | (news & cands & _ & Hm & ->)].
  - exists []. rewrite app_nil_r. repeat split; auto.
  - destruct (enrich_loop_extends w cands 0 db []) as (extra & He & Hlen).
    exists extra. split; [exact He|]. split.
    + now apply enrich_loop_nodup.
    + intros Hmax. pose proof (merge_and_dedupe_length _ _ _ Hmax Hm). lia.
Qed.

Lemma main_append_only_witness :
  exists extra,
    fst (main all_well [{| article_id := "a"; seen_at := 0 |}]) =
    [{| article_id := "a"; seen_at := 0 |}] ++ extra /\
    NoDup (map article_id
             (fst (main all_well [{| article_id := "a"; seen_at := 0 |}]))).
Proof.
  destruct (@main_append_only all_well [{| article_id := "a"; seen_at := 0 |}])
    as (extra & H1 & H2 & _).
  - repeat constructor. simpl. tauto.
  - exists extra. split; assumption.
Defined.

(* ------------------------------------------------------------------ *)
(** ** More on the dedupe pass *)

Lemma dedupe_and_filter_state (w : World) (db : Db) (l : list article) :
  readable w l ->
  exists u,
    dedupe_and_filter w db l = Ok (map snd u) /\ dedupe_state db u l.
Proof.
  intros Hr.
  destruct (dedupe_loop_state (dedupe_state_nil db) Hr) as (u & Hl & Hst).
  exists u. split; [|exact Hst].
  unfold dedupe_and_filter. now rewrite Hl.
Qed.

Lemma first_with_key_in (a : article) (l : list article) :
  first_with_key a l -> In a l.
Proof.
  intros (pre & post & -> & _). apply in_or_app. right. now left.
Qed.

Lemma dict_mem_true (k : string) (u : list (string * article)) :
  dict_mem k u = true -> exists a, In (k, a) u.
Proof.
  intros H. apply existsb_exists in H. destruct H as ([k' a] & Hin & Hk).
  simpl in Hk. apply String.eqb_eq in Hk. subst k'. now exists a.
Qed.

Lemma dict_mem_notin (k : string) (u : list (string * article)) :
  ~ In k (map fst u) -> dict_mem k u = false.
Proof.
  intros H. destruct (dict_mem k u) eqn:E; [|reflexivity].
  apply dict_mem_true in E. destruct E as (a & Ha).
  exfalso. apply H. apply in_map_iff. now exists (k, a).
Qed.

(** X7: the dedupe pass keeps exactly the eligible keys.  On a readable
    table the pass returns articles of the batch, and a key is the key of
    a returned article if and only if it is truthy, absent from the table
    and the key of some article of the batch: nothing eligible is lost and
    nothing else gets through. *)
Theorem dedupe_keeps_exactly_eligible (w : World) (db : Db)
    (l : list article) :
  readable w l ->
  exists out,
    dedupe_and_filter w db l = Ok out /\
    (forall b, In b out -> In b l) /\
    (forall k,
        (exists b, In b out /\ derive_key b = Some k) <->
        (eligible db k = true /\ exists a, In a l /\ derive_key a = Some k)).
Proof.
  intros Hr. destruct (dedupe_and_filter_state db Hr) as (u & Hd & Hst).
  exists (map snd u). split; [exact Hd|].
  pose proof (ds_keys Hst) as Hk. rewrite Forall_forall in Hk.
  pose proof (ds_complete Hst) as Hc. rewrite Forall_forall in Hc.
  split.
  - intros b Hb. apply in_map_iff in Hb. destruct Hb as ([k b'] & <- & Hin).
    destruct (Hk _ Hin) as (_ & _ & H3). now apply first_with_key_in.
  - intros k. split.
    + intros (b & Hb & Hkey). apply in_map_iff in Hb.
      destruct Hb as ([k' b'] & <- & Hin).
      destruct (Hk _ Hin) as (H1 & H2 & H3). simpl in *.
      assert (k' = k) by congruence. subst k'. split; [exact H2|].
      exists b'. split; [now apply first_with_key_in|exact H1].
    + intros (He & a & Ha & Hkey).
      destruct (dict_mem_true _ _ (Hc a Ha k Hkey He)) as (b & Hb).
      exists b. split.
      * apply in_map_iff. now exists (k, b).
      * now destruct (Hk _ Hb) as (H1 & _).
Qed.

Lemma dedupe_keeps_exactly_eligible_witness :
  exists out,
    dedupe_and_filter quiet_world [{| article_id := "b"; seen_at := 0 |}]
      [story "a" "2024-01-02"; story "b" "2024-01-01"; story "a" "2024-01-03"]
    = Ok out /\
    (forall b, In b out ->
       In b [story "a" "2024-01-02"; story "b" "2024-01-01";
             story "a" "2024-01-03"]).
Proof.
  destruct (@dedupe_keeps_exactly_eligible quiet_world
              [{| article_id := "b"; seen_at := 0 |}]
              [story "a" "2024-01-02"; story "b" "2024-01-01";
               story "a" "2024-01-03"])
    as (out & H1 & H2 & _).
  - intros a k _ _. reflexivity.
  - exists out. split; assumption.
Defined.

Lemma dedupe_loop_distinct (w : World) (db : Db)
    (kl : list (string * article)) :
  Forall (fun ka => derive_key (snd ka) = Some (fst ka) /\
                    eligible db (fst ka) = true /\
                    select_fails w (fst ka) = false) kl ->
  forall u,
  NoDup (map fst (u ++ kl)) ->
  dedupe_loop w db u (map snd kl) = Ok (u ++ kl).
Proof.
  induction 1 as [|[k a] kl (H1 & H2 & H3) _ IH]; intros u Hnd; simpl.
  - now rewrite app_nil_r.
  - simpl in *. rewrite H1. unfold eligible in H2.
    apply andb_true_iff in H2. destruct H2 as [Hne Hseen].
    apply negb_true_iff in Hne, Hseen. rewrite Hne.
    unfold is_seen. rewrite H3, Hseen. simpl.
    rewrite dict_mem_notin.
    + rewrite IH; rewrite <- app_assoc; [reflexivity|exact Hnd].
    + rewrite map_app in Hnd. simpl in Hnd.
      apply NoDup_remove_2 in Hnd. intros Hin. apply Hnd.
      apply in_or_app. now left.
Qed.

(** X8: the dedupe pass is idempotent.  Run on its own output, against
    the same table, it returns that output unchanged. *)
Theorem dedupe_and_filter_idempotent (w : World) (db : Db)
    (l : list article) :
  readable w l ->
  exists out,
    dedupe_and_filter w db l = Ok out /\
    dedupe_and_filter w db out = Ok out.
Proof.
  intros Hr. destruct (dedupe_and_filter_state db Hr) as (u & Hd & Hst).
  exists (map snd u). split; [exact Hd|].
  unfold dedupe_and_filter. rewrite (@dedupe_loop_distinct w db u); simpl.
  - reflexivity.
  - eapply Forall_impl; [|exact (ds_keys Hst)].
    intros [k a] (H1 & H2 & H3). simpl in *. repeat split; auto.
    eapply Hr; [|exact H1]. now apply first_with_key_in.
  - exact (ds_nodup Hst).
Qed.

Lemma dedupe_and_filter_idempotent_witness :
  exists out,
    dedupe_and_filter quiet_world []
      [story "a" "2024-01-02"; story "b" "2024-01-01"; story "a" "2024-01-03"]
    = Ok out /\
    dedupe_and_filter quiet_world [] out = Ok out.
Proof.
  apply (@dedupe_and_filter_idempotent quiet_world []).
  intros a k _ _. reflexivity.
Defined.

(* ------------------------------------------------------------------ *)
(** ** From one run to the next *)

Lemma derive_key_id (a : article) :
  truthy_str (id a) = true -> derive_key a = id a.
Proof.
  intros H. unfold derive_key, py_or. now rewrite H, H.
Qed.

Lemma dedupe_loop_all_seen (w : World) (db : Db) (l : list article) :
  (forall a k, In a l -> derive_key a = Some k -> k <> "" ->
               select_fails w k = false /\ has_key db k = true) ->
  forall u, dedupe_loop w db u l = Ok u.
Proof.
  induction l as [|a l IH]; intros H u; simpl; [reflexivity|].
  assert (IH' : dedupe_loop w db u l = Ok u).
  { apply IH. intros b k Hb. apply H. now right. }
  destruct (derive_key a) as [k|] eqn:Hk; [|exact IH'].
  destruct (k =? "") eqn:He; [exact IH'|].
  apply String.eqb_neq in He.
  destruct (H a k (or_introl eq_refl) Hk He) as [Hsel Hseen].
  unfold is_seen. rewrite Hsel, Hseen. exact IH'.
Qed.

(** X9: a recorded candidate is not let through again.  Where executed
    inserts are committed, after the loop of [main] has gone over all the
    candidates without raising, candidates that all have a truthy id whose
    insert can be executed, the dedupe pass against the resulting table
    lets none of them through. *)
Theorem recorded_candidates_are_seen (w : World) (db db1 : Db)
    (candidates : list article) (processed : list DigestItem) :
  commits w = true ->
  enrich_loop w candidates 0 db [] = (db1, Ok processed) ->
  (forall a, In a candidates ->
     truthy_str (id a) = true /\ insert_fails w (id a) = false) ->
  readable w candidates ->
  dedupe_and_filter w db1 candidates = Ok [].
Proof.
  intros Hc Hl Hid Hr. unfold dedupe_and_filter.
  rewrite dedupe_loop_all_seen; [reflexivity|].
  intros a k Ha Hk _. split; [now apply (Hr a)|].
  destruct (Hid a Ha) as [Ht Hins].
  rewrite (derive_key_id a Ht) in Hk. rewrite Hk in Hins.
  now apply (enrich_loop_records w candidates a Hc Ha Hk Hins _ _ _ Hl).
Qed.

Lemma recorded_candidates_are_seen_witness :
  dedupe_and_filter quiet_world
    [{| article_id := "a"; seen_at := 0 |};
     {| article_id := "b"; seen_at := 1 |}]
    [story "a" "2024-01-02"; story "b" "2024-01-01"]
  = Ok [].
Proof.
  eapply (@recorded_candidates_are_seen quiet_world []).
  - reflexivity.
  - reflexivity.
  - intros a [<- | [<- | []]]; split; reflexivity.
  - intros a k _ _. reflexivity.
Defined.

Lemma main_nothing_new (w : World) (db : Db)
    (newsapi_articles : list article) :
  fetch_newsapi w = Ok newsapi_articles ->
  dedupe_and_filter w db (sorted_desc (fetched w newsapi_articles)) = Ok [] ->
  main w db = (db, Ok NoNewStories).
Proof.
  unfold main, fetched, merge_and_dedupe. intros -> ->. simpl.
  unfold py_slice_to. simpl.
  destruct (0 <=? MAX_STORIES w)%Z; now rewrite firstn_nil.
Qed.

(** X10: a second run over the same sources sends nothing.  Where
    executed inserts are committed: when every fetched article has a
    truthy id, the table can be read and written, no date overflows, and
    the batch of new articles fits under [MAX_STORIES], then after one
    run, however its delivery ended, a run against the table it left finds
    no new story, sends nothing and leaves the table as it is. *)
Theorem rerun_sends_nothing (w : World) (db : Db)
    (newsapi_articles candidates : list article) :
  commits w = true ->
  fetch_newsapi w = Ok newsapi_articles ->
  (forall a, In a (fetched w newsapi_articles) ->
     truthy_str (id a) = true /\ smooth w a) ->
  (forall k, insert_fails w (Some k) = false) ->
  readable w (fetched w newsapi_articles) ->
  dedupe_and_filter w db (sorted_desc (fetched w newsapi_articles))
    = Ok candidates ->
  (Z.of_nat (List.length candidates) <= MAX_STORIES w)%Z ->
  main w (fst (main w db)) = (fst (main w db), Ok NoNewStories).
Proof.
  intros Hcommit Hf Hid Hins Hr Hd Hmax.
  set (all := fetched w newsapi_articles) in *.
  assert (Hperm : forall a, In a (sorted_desc all) -> In a all).
  { intros a. apply Permutation_in, Permutation_sym, sorted_desc_perm. }
  assert (Hr' : readable w (sorted_desc all)).
  { intros a k Ha. apply (Hr a k). now apply Hperm. }
  assert (Hm : merge_and_dedupe w db all = Ok candidates).
  { unfold merge_and_dedupe. rewrite Hd. simpl. unfold py_slice_to.
    assert (H0 : (0 <=? MAX_STORIES w)%Z = true) by (apply Z.leb_le; lia).
    rewrite H0, firstn_all2; [reflexivity|lia]. }
  destruct (dedupe_and_filter_state db Hr') as (u & Hu & Hst).
  assert (candidates = map snd u) by congruence. subst candidates.
  pose proof (ds_keys Hst) as Hk'. rewrite Forall_forall in Hk'.
  pose proof (ds_complete Hst) as Hc. rewrite Forall_forall in Hc.
  assert (Hsmooth : Forall (smooth w) (map snd u)).
  { apply Forall_forall. intros b Hb. apply in_map_iff in Hb.
    destruct Hb as ([k b'] & <- & Hin).
    destruct (Hk' _ Hin) as (_ & _ & H3). simpl in *.
    apply Hid, Hperm. now apply first_with_key_in. }
  destruct (enrich_loop_smooth Hsmooth 0 db []) as (db1 & items & Hl).
  rewrite (main_table_after_loop w db Hf Hm), Hl. simpl.
  apply (main_nothing_new w db1 Hf). fold all.
  unfold dedupe_and_filter. rewrite dedupe_loop_all_seen; [reflexivity|].
  intros a k Ha Hk Hne. split; [now apply (Hr' a)|].
  destruct (has_key db k) eqn:Hseen.
  { pose proof (@enrich_loop_keeps w (map snd u) k 0 db [] Hseen) as H.
    now rewrite Hl in H. }
  assert (He : eligible db k = true).
  { unfold eligible. rewrite Hseen. apply String.eqb_neq in Hne.
    now rewrite Hne. }
  destruct (dict_mem_true _ _ (Hc a Ha k Hk He)) as (b & Hb).
  destruct (Hk' _ Hb) as (H1 & _ & H3). simpl in *.
  assert (Hbid : id b = Some k).
  { rewrite <- H1. symmetry. apply derive_key_id, Hid, Hperm.
    now apply first_with_key_in. }
  apply (enrich_loop_records w (map snd u) b Hcommit) with (1 := in_map snd u (k, b) Hb)
    (2 := Hbid) (3 := Hins k) (4 := Hl).
Qed.

Lemma rerun_sends_nothing_witness :
  main sendgrid_down (fst (main sendgrid_down [])) =
  (fst (main sendgrid_down []), Ok NoNewStories).
Proof.
  apply (@rerun_sends_nothing sendgrid_down []
           (map newsapi_article
                [api_story (Some "a") (Some "A") (Some "2024-01-02");
                 api_story (Some "b") (Some "B") (Some "2024-01-01")])
           (map newsapi_article
                [api_story (Some "a") (Some "A") (Some "2024-01-02");
                 api_story (Some "b") (Some "B") (Some "2024-01-01")])).
  - reflexivity.
  - reflexivity.
  - intros a [<- | [<- | []]]; repeat split.
  - intros k. reflexivity.
  - intros a k _ _. reflexivity.
  - reflexivity.
  - simpl. lia.
Defined.

(** X20: without a commit no run leaves a trace.  Where an executed
    insert is rolled back when the connection closes, [main] never changes
    the table, however it ends, and a second run over the same sources
    does exactly what the first one did: it lets the same articles through
    and sends them again. *)
Theorem uncommitted_run_leaves_no_trace (w : World) (db : Db) :
  commits w = false ->
  fst (main w db) = db /\
  main w (fst (main w db)) = main w db.
Proof.
  intros Hc.
  assert (H : fst (main w db) = db).
  { destruct (main_table w db) as [H | (news & cands & _ & _ & H)];
      [exact H|].
    rewrite H. now apply enrich_loop_uncommitted. }
  split; [exact H|]. now rewrite H.
Qed.

Lemma uncommitted_run_leaves_no_trace_witness :
  main (uncommitted all_well) [] = ([], Ok Sent) /\
  main (uncommitted all_well) (fst (main (uncommitted all_well) [])) =
  ([], Ok Sent).
Proof.
  destruct (@uncommitted_run_leaves_no_trace (uncommitted all_well) [])
    as [H1 H2]; [reflexivity|].
  rewrite H2. split; reflexivity.
Defined.

(* ------------------------------------------------------------------ *)
(** ** More on grouping *)

Lemma hashable_all_or_some (items : list DigestItem) :
  Forall (fun it => hashable (primary_of it) = true) items \/
  Exists (fun it => hashable (primary_of it) = false) items.
Proof.
  induction items as [|it items [IH | IH]].
  - left. constructor.
  - destruct (hashable (primary_of it)) eqn:E.
    + left. now constructor.
    + right. now constructor.
  - right. now constructor 2.
Qed.

Lemma group_loop_unhashable (items : list DigestItem) :
  Exists (fun it => hashable (primary_of it) = false) items ->
  forall g, group_loop g items = Raise TypeError.
Proof.
  induction 1 as [it items H | it items _ IH]; intros g; simpl;
    rewrite primary_tag_total; simpl.
  - now rewrite H.
  - destruct (hashable (primary_of it)); [apply IH|reflexivity].
Qed.

(** X11: when grouping fails.  [group_by_topic] raises exactly when the
    first tag of some item is a list or an object, which cannot be a dict
    key; the exception is then a TypeError, and it never raises anything
    else. *)
Theorem group_by_topic_raises_iff (items : list DigestItem) :
  (group_by_topic items = Raise TypeError <->
   Exists (fun it => hashable (primary_of it) = false) items) /\
  (forall e, group_by_topic items = Raise e -> e = TypeError).
Proof.
  assert (Hno : forall e, group_by_topic items = Raise e ->
                  Exists (fun it => hashable (primary_of it) = false) items).
  { intros e He. destruct (hashable_all_or_some items) as [Hall | Hex];
      [|exact Hex].
    destruct (group_loop_grouping grouping_of_nil Hall) as (g & Hg & _).
    unfold group_by_topic in He. congruence. }
  split; [split|].
  - apply Hno.
  - intros Hex. now apply group_loop_unhashable.
  - intros e He. pose proof (group_loop_unhashable (Hno e He) []) as H.
    unfold group_by_topic in He. congruence.
Qed.

Lemma grouped_append_heads (it0 : DigestItem) (g : GroupedDigest) :
  Forall (fun kg => exists it rest, snd kg = it :: rest /\
                                    primary_of it = fst kg) g ->
  Forall (fun kg => exists it rest, snd kg = it :: rest /\
                                    primary_of it = fst kg)
         (grouped_append (primary_of it0) it0 g).
Proof.
  induction 1 as [|[k grp] g (it & rest & Hgrp & Hk) Hg IH]; simpl.
  - constructor; [|constructor]. now exists it0, [].
  - simpl in *. destruct (key_eqb (primary_of it0) k).
    + constructor; [|exact Hg]. exists it, (rest ++ [it0]). simpl.
      now rewrite Hgrp.
    + constructor; [|exact IH]. now exists it, rest.
Qed.

Lemma group_loop_heads (items : list DigestItem) :
  forall g g',
  Forall (fun kg => exists it rest, snd kg = it :: rest /\
                                    primary_of it = fst kg) g ->
  group_loop g items = Ok g' ->
  Forall (fun kg => exists it rest, snd kg = it :: rest /\
                                    primary_of it = fst kg) g'.
Proof.
  induction items as [|it items IH]; intros g g' Hg H; simpl in H.
  - now inversion H; subst.
  - rewrite primary_tag_total in H. simpl in H.
    destruct (hashable (primary_of it)); [|discriminate].
    eapply IH; [|exact H]. now apply grouped_append_heads.
Qed.

(** X12: how a group gets its key.  In the dict that [group_by_topic]
    returns no group is empty, and the key of each group is the first tag
    of the group's first item, exactly as that item has it (["Other"] when
    the item has no usable tag list): a later item whose first tag merely
    compares equal, as [1] and [True] do, joins the group without
    changing its key. *)
Theorem group_key_is_first_items_tag (items : list DigestItem)
    (g : GroupedDigest) :
  group_by_topic items = Ok g ->
  Forall (fun kg => exists it rest, snd kg = it :: rest /\
                                    primary_of it = fst kg) g.
Proof.
  intros H. eapply group_loop_heads; [|exact H]. constructor.
Qed.

Lemma group_key_is_first_items_tag_witness :
  Forall (fun kg => exists it rest, snd kg = it :: rest /\
                                    primary_of it = fst kg)
    [(PBool true, [item_tagged "a" (PList [PBool true]);
                   item_tagged "b" (PList [PNum 1])])].
Proof.
  apply (@group_key_is_first_items_tag
           [item_tagged "a" (PList [PBool true]);
            item_tagged "b" (PList [PNum 1])]).
  reflexivity.
Defined.

(* ------------------------------------------------------------------ *)
(** ** How a run ends *)

Lemma send_email_unconfigured (w : World) (m : Message) :
  sendgrid_configured w = false ->
  send_email_via_sendgrid w m = Raise RuntimeError.
Proof.
  unfold sendgrid_configured, send_email_via_sendgrid.
  destruct (truthy_str (SENDGRID_API_KEY w)), (truthy_str (FROM_EMAIL w)),
    (truthy_str (TO_EMAIL w)); simpl; congruence.
Qed.

Lemma send_email_configured (w : World) (m : Message) :
  sendgrid_configured w = true ->
  send_email_via_sendgrid w m = sg_send w m.
Proof.
  unfold sendgrid_configured, send_email_via_sendgrid.
  destruct (truthy_str (SENDGRID_API_KEY w)), (truthy_str (FROM_EMAIL w)),
    (truthy_str (TO_EMAIL w)); simpl; congruence.
Qed.

Lemma build_and_send_ok (w : World) (stories : list DigestItem) (u : unit) :
  build_and_send w stories = Ok u ->
  sendgrid_configured w = true /\
  exists g html,
    group_by_topic stories = Ok g /\
    total_size g = List.length stories /\
    template_render w g (now_local w) (List.length stories) = Ok html /\
    sg_send w {| msg_generated_at := now_local w;
                 msg_total := List.length stories;
                 msg_html := html |} = Ok u.
Proof.
  unfold build_and_send. intros H.
  destruct (group_by_topic stories) as [g|] eqn:Hg; [|discriminate].
  simpl in H.
  destruct (template_render w g (now_local w) (List.length stories))
    as [html|] eqn:Hr; [|discriminate].
  simpl in H.
  destruct (sendgrid_configured w) eqn:Hc.
  - split; [reflexivity|]. exists g, html.
    rewrite send_email_configured in H by assumption.
    repeat split; auto.
    destruct (group_by_topic_spec (group_loop_ok_hashable _ _ Hg))
      as (g' & Hg' & Hs & _).
    congruence.
  - rewrite send_email_unconfigured in H by assumption. discriminate.
Qed.

(** X13: what "sent" means.  A run reports [Sent] only if the loop went
    over every candidate without raising and built one item for each,
    SendGrid is configured, the items were grouped into a digest whose
    groups hold as many items as there are candidates, the template was
    rendered with that digest and that count, and SendGrid accepted a
    message for at least one story; the table is then the one the loop
    left. *)
Theorem main_sent_means_accepted (w : World) (db db' : Db) :
  main w db = (db', Ok Sent) ->
  sendgrid_configured w = true /\
  exists newsapi_articles candidates processed g html,
    fetch_newsapi w = Ok newsapi_articles /\
    merge_and_dedupe w db (fetched w newsapi_articles) = Ok candidates /\
    candidates <> [] /\
    enrich_loop w candidates 0 db [] = (db', Ok processed) /\
    Forall2 (item_of w) candidates processed /\
    group_by_topic processed = Ok g /\
    total_size g = List.length candidates /\
    template_render w g (now_local w) (List.length candidates) = Ok html /\
    sg_send w {| msg_generated_at := now_local w;
                 msg_total := List.length candidates;
                 msg_html := html |} = Ok tt.
Proof.
  unfold main, fetched. intros H.
  destruct (fetch_newsapi w) as [news|] eqn:Hf; [|discriminate].
  destruct (merge_and_dedupe w db (news ++ fetch_rss_feeds w)) as [cands|]
    eqn:Hm; [|discriminate].
  destruct (enrich_loop w cands 0 db []) as [db1 [[|it rest]|e]] eqn:Hl;
    try discriminate.
  destruct (build_and_send w (it :: rest)) as [[]|] eqn:Hs; [|discriminate].
  inversion H; subst db'.
  destruct (@enrich_loop_items w cands 0 db [] db1 (it :: rest) Hl)
    as (new & Heq & Hnew).
  simpl in Heq. subst new.
  pose proof (Forall2_length Hnew) as Hlen.
  destruct (build_and_send_ok _ _ Hs) as (Hc & g & html & Hg & Ht & Hr & Hsg).
  rewrite <- Hlen in *.
  split; [exact Hc|]. exists news, cands, (it :: rest), g, html.
  repeat split; auto.
  intros ->. inversion Hnew.
Qed.

Lemma main_sent_means_accepted_witness :
  sendgrid_configured all_well = true.
Proof.
  apply (@main_sent_means_accepted all_well [] (fst (main all_well []))).
  reflexivity.
Defined.

(** X14: no "sent" without the SendGrid settings.  When the API key, the
    sender or the recipient is missing or empty, the mail is refused with
    a RuntimeError before SendGrid is contacted, [build_and_send] never
    succeeds and no run reports [Sent]. *)
Theorem unconfigured_never_sent (w : World) :
  sendgrid_configured w = false ->
  (forall m, send_email_via_sendgrid w m = Raise RuntimeError) /\
  (forall stories, is_ok (build_and_send w stories) = false) /\
  (forall db, snd (main w db) <> Ok Sent).
Proof.
  intros Hc.
  assert (Hb : forall stories, is_ok (build_and_send w stories) = false).
  { intros stories. unfold build_and_send.
    destruct (group_by_topic stories) as [g|]; [|reflexivity]. simpl.
    destruct (template_render w g (now_local w) (List.length stories));
      [|reflexivity].
    simpl. now rewrite send_email_unconfigured. }
  split; [intros m; now apply send_email_unconfigured|].
  split; [exact Hb|].
  intros db. unfold main.
  destruct (fetch_newsapi w); [|discriminate].
  destruct (merge_and_dedupe w db _); [|discriminate].
  destruct (enrich_loop w _ 0 db []) as [db1 [[|it processed]|e]];
    try discriminate.
  specialize (Hb (it :: processed)).
  destruct (build_and_send w (it :: processed)); simpl in *; discriminate.
Qed.

Lemma unconfigured_never_sent_witness :
  snd (main (without_recipient all_well) []) <> Ok Sent.
Proof.
  apply (@unconfigured_never_sent (without_recipient all_well)). reflexivity.
Defined.

(* ------------------------------------------------------------------ *)
(** ** Edge values of [MAX_STORIES] *)

(** X15: a maximum of zero.  With [MAX_STORIES = 0] a run still fetches
    and dedupes, and may fail there, but it enriches nothing, records
    nothing and sends nothing. *)
Theorem zero_maximum_does_nothing (w : World) (db : Db) :
  MAX_STORIES w = 0%Z ->
  main w db = (db, Ok NoNewStories) \/ exists e, main w db = (db, Raise e).
Proof.
  intros Hmax. unfold main.
  destruct (fetch_newsapi w) as [news|e]; [|right; now exists e].
  unfold merge_and_dedupe.
  destruct (dedupe_and_filter w db (sorted_desc (news ++ fetch_rss_feeds w)))
    as [cands|e]; [|right; now exists e].
  left. simpl. unfold py_slice_to. rewrite Hmax. reflexivity.
Qed.

Lemma zero_maximum_does_nothing_witness :
  main (with_max 0 all_well) [] = ([], Ok NoNewStories) \/
  exists e, main (with_max 0 all_well) [] = ([], Raise e).
Proof.
  apply (@zero_maximum_does_nothing (with_max 0 all_well) []). reflexivity.
Defined.

(** X16: a negative maximum is no bound.  With [MAX_STORIES < 0] the
    slice [candidates[:MAX_STORIES]] drops that many candidates from the
    end of the deduped list and keeps all the others, however many they
    are. *)
Theorem negative_maximum_drops_from_end (w : World) (db : Db)
    (all_articles deduped : list article) :
  (MAX_STORIES w < 0)%Z ->
  dedupe_and_filter w db (sorted_desc all_articles) = Ok deduped ->
  exists kept dropped,
    merge_and_dedupe w db all_articles = Ok kept /\
    deduped = kept ++ dropped /\
    List.length dropped =
    Nat.min (Z.to_nat (- MAX_STORIES w)) (List.length deduped).
Proof.
  intros Hneg Hd. unfold merge_and_dedupe. rewrite Hd. simpl.
  unfold py_slice_to.
  assert (H0 : (0 <=? MAX_STORIES w)%Z = false) by (apply Z.leb_gt; lia).
  rewrite H0.
  set (n := Z.to_nat (Z.of_nat (List.length deduped) + MAX_STORIES w)).
  exists (firstn n deduped), (skipn n deduped).
  split; [reflexivity|]. split; [now rewrite firstn_skipn|].
  rewrite length_skipn. subst n. lia.
Qed.

Lemma negative_maximum_drops_from_end_witness :
  exists kept dropped,
    merge_and_dedupe (with_max (-1) quiet_world) []
      [story "a" "3"; story "b" "2"; story "c" "1"] = Ok kept /\
    [story "a" "3"; story "b" "2"; story "c" "1"] = kept ++ dropped /\
    List.length dropped = 1%nat.
Proof.
  apply (@negative_maximum_drops_from_end (with_max (-1) quiet_world) []
           [story "a" "3"; story "b" "2"; story "c" "1"]
           [story "a" "3"; story "b" "2"; story "c" "1"]).
  - reflexivity.
  - reflexivity.
Defined.

(* ------------------------------------------------------------------ *)
(** ** Answers that are not a JSON object *)

Lemma str_take_length (n : nat) (s : string) :
  String.length (str_take n s) = Nat.min n (String.length s).
Proof.
  revert s. induction n as [|n IH]; intros [|c s]; simpl; auto.
Qed.

Lemma str_take_prefix (n : nat) (s : string) :
  String.prefix (str_take n s) s = true.
Proof.
  revert s. induction n as [|n IH]; intros [|c s]; simpl; auto.
  destruct (ascii_dec c c); [apply IH|contradiction].
Qed.

(** X17: the summary of an answer that is not a JSON object.  When the
    chat completion returns text that does not decode to an object, the
    item's summary is a string of at most 400 characters and its tags,
    sentiment and score are the defaults; if the text is not JSON at all,
    the summary is the beginning of the stripped text. *)
Theorem non_object_answer_summary (w : World) (a : article)
    (normalized : option string) (content : string) :
  chat_completion w (title a) (url a) = Ok content ->
  (forall d, json_loads w (strip content) <> Ok (PDict d)) ->
  (exists s, summary (enrich w a normalized) = PStr s /\
             (String.length s <= 400)%nat /\
             (is_ok (json_loads w (strip content)) = false ->
              s = str_take 400 (strip content) /\
              String.prefix s (strip content) = true)) /\
  tags (enrich w a normalized) = PList [PStr "Other"] /\
  sentiment (enrich w a normalized) = PStr "Neutral" /\
  score (enrich w a normalized) = PNum (1 # 2).
Proof.
  intros Hc Hj. unfold enrich, call_llm_for_article. rewrite Hc.
  assert (Hlen : forall s, (String.length (str_take 400 s) <= 400)%nat).
  { intros s. rewrite str_take_length. lia. }
  destruct (json_loads w (strip content)) as [[|b|q|s|l|d]|e] eqn:E;
    try (split; [eexists; split; [reflexivity|split; [apply Hlen|discriminate]]
                |repeat split]).
  - now contradiction (Hj d).
  - split; [|repeat split].
    exists (str_take 400 (strip content)). split; [reflexivity|].
    split; [apply Hlen|]. intros _. split; [reflexivity|apply str_take_prefix].
Qed.

Lemma non_object_answer_summary_witness :
  tags (enrich all_well (story "a" "2024-01-02") None) = PList [PStr "Other"].
Proof.
  apply (@non_object_answer_summary all_well (story "a" "2024-01-02") None
           "  A short summary. ").
  - reflexivity.
  - discriminate.
Defined.

(* ------------------------------------------------------------------ *)
(** ** Sorting a sorted batch *)

Lemma insert_desc_head (x : article) (l : list article) :
  Forall (ge_key x) l -> insert_desc x l = x :: l.
Proof.
  destruct 1 as [|y l Hy _]; simpl; [reflexivity|].
  unfold ge_key in Hy. now rewrite Hy.
Qed.

Lemma sorted_desc_of_sorted (l : list article) :
  StronglySorted ge_key l -> sorted_desc l = l.
Proof.
  induction 1 as [|x l _ IH Hx]; simpl; [reflexivity|].
  rewrite IH. now apply insert_desc_head.
Qed.

(** X18: a batch already in recency order is left alone.  Sorting keeps
    a list whose published strings never increase exactly as it is, so
    sorting twice is sorting once. *)
Theorem sorted_desc_idempotent (l : list article) :
  sorted_desc (sorted_desc l) = sorted_desc l /\
  (StronglySorted ge_key l -> sorted_desc l = l).
Proof.
  split; [|apply sorted_desc_of_sorted].
  apply sorted_desc_of_sorted, sorted_desc_sorted.
Qed.

(* ------------------------------------------------------------------ *)
(** ** A tag that cannot be a dict key *)

(** X19: one unusable tag loses the whole digest.  If the loop went over
    every candidate without raising and the item built for one of them
    has a [tags] list that starts with a list or an object, grouping
    raises a TypeError, nothing is rendered or sent, and the run ends with
    that error and the table as the loop left it. *)
Theorem unhashable_tag_fails_run (w : World) (db db1 : Db)
    (newsapi_articles candidates : list article)
    (processed : list DigestItem) (it : DigestItem) :
  fetch_newsapi w = Ok newsapi_articles ->
  merge_and_dedupe w db (fetched w newsapi_articles) = Ok candidates ->
  enrich_loop w candidates 0 db [] = (db1, Ok processed) ->
  In it processed ->
  hashable (primary_of it) = false ->
  build_and_send w processed = Raise TypeError /\
  main w db = (db1, Raise TypeError).
Proof.
  intros Hf Hm Hl Hin Hh.
  assert (Hb : build_and_send w processed = Raise TypeError).
  { unfold build_and_send, group_by_topic.
    rewrite group_loop_unhashable; [reflexivity|].
    apply Exists_exists. now exists it. }
  split; [exact Hb|].
  unfold main. unfold fetched in Hm. rewrite Hf, Hm, Hl.
  destruct processed; [contradiction|]. now rewrite Hb.
Qed.

Lemma unhashable_tag_fails_run_witness :
  main nested_tag_answer [] =
  ([{| article_id := "a"; seen_at := 0 |}], Raise TypeError).
Proof.
  eapply (@unhashable_tag_fails_run nested_tag_answer []).
  - reflexivity.
  - reflexivity.
  - reflexivity.
  - left. reflexivity.
  - reflexivity.
Defined.
